(** * HT-Race: the per-frame physics step of [main.js]

    The repository holds two variants of one driving simulation, both in a
    file called [main.js]: an open square field and a circular track.  The
    logical content of each is the function [updatePhysics(deltaTime)], which
    advances the body (velocity, angular velocity, heading, position) by one
    frame, applies a boundary policy and places a chase camera.  A second
    copy of the open-field script differs from the first in comments and
    scene set-up only; its [updatePhysics] is the same statement for
    statement, so [OpenField] below stands for both.

    Numbers.  JavaScript numbers are modelled as real numbers ([R]) with
    exact arithmetic: [+], [*], [1/s], [Math.sqrt], [Math.sin], [Math.cos],
    [Math.abs] are the real operations, comparisons are the real order.
    Rounding, overflow and NaN are outside the model.

    Mutation.  The globals of the script ([velocity], [angularVelocity],
    [player], [camera]) form the record [World]; every statement of
    [updatePhysics] is a function [World -> World], and the statements are
    grouped into the phases the source separates by its section comments. *)

From Stdlib Require Import Reals Lra Lia List Bool ZArith String.
Import ListNotations.

Local Open Scope R_scope.

(** ** Comparisons used as JavaScript conditions *)

Definition Rgtb (a b : R) : bool := if Rgt_dec a b then true else false.
Definition Rltb (a b : R) : bool := if Rlt_dec a b then true else false.

(** [a || b] on numbers: [b] when [a] is falsy, that is zero. *)
Definition js_or (a b : R) : R := if Req_dec_T a 0 then b else a.

(** ** The vector capability of the rendering library *)

Module THREE.

Record Vector3 : Type := mkVector3 { x : R; y : R; z : R }.

Record Vector2 : Type := mkVector2 { x2 : R; y2 : R }.

Record Quaternion : Type := mkQuaternion { qx : R; qy : R; qz : R; qw : R }.

(** Modelled from the spec: the vector math of the rendering library (add,
    scale, length, normalize, axis-angle rotation) is not under src/; the
    definitions below follow the methods of three.js that [main.js] calls.
    [v.add(w)]. *)
Definition add (v w : Vector3) : Vector3 :=
  mkVector3 (x v + x w) (y v + y w) (z v + z w).

(** Modelled from the spec: [v.multiplyScalar(s)]. *)
Definition multiplyScalar (v : Vector3) (s : R) : Vector3 :=
  mkVector3 (x v * s) (y v * s) (z v * s).

(** Modelled from the spec: [v.divideScalar(s)] is
    [v.multiplyScalar(1 / s)]. *)
Definition divideScalar (v : Vector3) (s : R) : Vector3 :=
  multiplyScalar v (1 / s).

(** Modelled from the spec: [v.length()]. *)
Definition length (v : Vector3) : R :=
  sqrt (x v * x v + y v * y v + z v * z v).

(** Modelled from the spec: [v.normalize()] is
    [v.divideScalar(v.length() || 1)], so the zero vector is returned
    unchanged instead of failing. *)
Definition normalize (v : Vector3) : Vector3 :=
  divideScalar v (js_or (length v) 1).

(** Modelled from the spec: [v.setLength(l)] is
    [v.normalize().multiplyScalar(l)]. *)
Definition setLength (v : Vector3) (l : R) : Vector3 :=
  multiplyScalar (normalize v) l.

(** Modelled from the spec: [q.setFromAxisAngle(axis, angle)]; the axis is
    assumed normalized by the library, as it is at both call sites. *)
Definition setFromAxisAngle (axis : Vector3) (angle : R) : Quaternion :=
  let halfAngle := angle / 2 in
  let s := sin halfAngle in
  mkQuaternion (x axis * s) (y axis * s) (z axis * s) (cos halfAngle).

(** Modelled from the spec: [v.applyQuaternion(q)], the product
    [q * v * q^-1] written out as the library does. *)
Definition applyQuaternion (v : Vector3) (q : Quaternion) : Vector3 :=
  let ix := qw q * x v + qy q * z v - qz q * y v in
  let iy := qw q * y v + qz q * x v - qx q * z v in
  let iz := qw q * z v + qx q * y v - qy q * x v in
  let iw := - qx q * x v - qy q * y v - qz q * z v in
  mkVector3
    (ix * qw q + iw * - qx q + iy * - qz q - iz * - qy q)
    (iy * qw q + iw * - qy q + iz * - qx q - ix * - qz q)
    (iz * qw q + iw * - qz q + ix * - qy q - iy * - qx q).

(** Modelled from the spec: [v.applyAxisAngle(axis, angle)]. *)
Definition applyAxisAngle (v axis : Vector3) (angle : R) : Vector3 :=
  applyQuaternion v (setFromAxisAngle axis angle).

(** Modelled from the spec: [p.length()] on a 2D vector. *)
Definition length2 (p : Vector2) : R :=
  sqrt (x2 p * x2 p + y2 p * y2 p).

(** Modelled from the spec: [p.multiplyScalar(s)] on a 2D vector. *)
Definition multiplyScalar2 (p : Vector2) (s : R) : Vector2 :=
  mkVector2 (x2 p * s) (y2 p * s).

(** Modelled from the spec: [p.normalize()] on a 2D vector is
    [p.divideScalar(p.length() || 1)], with [divideScalar(s)] being
    [multiplyScalar(1 / s)]; the zero vector is returned unchanged. *)
Definition normalize2 (p : Vector2) : Vector2 :=
  multiplyScalar2 p (1 / js_or (length2 p) 1).

End THREE.

Import THREE.

(** ** The globals of the script *)

(** The input latch [keys]. *)
Record Keys : Type := mkKeys {
  forward : bool;
  backward : bool;
  left : bool;
  right : bool
}.

(** [velocity], [angularVelocity], [player.position], [player.rotation.y],
    [camera.position] and the point the camera was last aimed at by
    [camera.lookAt]. *)
Record World : Type := mkWorld {
  velocity : Vector3;
  angularVelocity : R;
  position : Vector3;
  rotation_y : R;
  camera_position : Vector3;
  camera_target : Vector3
}.

Definition set_velocity (w : World) (v : Vector3) : World :=
  mkWorld v (angularVelocity w) (position w) (rotation_y w)
          (camera_position w) (camera_target w).

Definition set_position (w : World) (p : Vector3) : World :=
  mkWorld (velocity w) (angularVelocity w) p (rotation_y w)
          (camera_position w) (camera_target w).

(** The sections of [updatePhysics], in the words of its comments:
    "1. Rotation (Steering)", "2. Acceleration (Force)" together with
    "3. Update Velocity" (they share the local [force]), "4. Update
    Position", "Camera Follow" and the boundary check. *)
Inductive Phase : Type :=
| Rotation
| Acceleration
| UpdatePosition
| CameraFollow
| BoundaryCheck.

Definition Phase_eqb (p q : Phase) : bool :=
  match p, q with
  | Rotation, Rotation
  | Acceleration, Acceleration
  | UpdatePosition, UpdatePosition
  | CameraFollow, CameraFollow
  | BoundaryCheck, BoundaryCheck => true
  | _, _ => false
  end.

(** Position of the first occurrence of a phase in a frame's program. *)
Fixpoint phaseIndex (p : Phase) (ps : list Phase) : option nat :=
  match ps with
  | [] => None
  | q :: qs => if Phase_eqb p q then Some O
               else option_map S (phaseIndex p qs)
  end.

(** [runsAfter p q ps]: both phases occur in [ps] and [p] comes later. *)
Definition runsAfter (p q : Phase) (ps : list Phase) : bool :=
  match phaseIndex p ps, phaseIndex q ps with
  | Some i, Some j => Nat.ltb j i
  | _, _ => false
  end.

(** ** The statements shared by the two variants *)

Section Integrator.

Variables MASS ACCELERATION MAX_SPEED DRAG ANGULAR_DRAG TURN_RATE : R.

(** The variant's boundary check, as a statement on the globals. *)
Variable boundaryCheck : World -> World.

(** Angular velocity after the two steering conditionals and before the
    angular drag. *)
Definition steerInput (deltaTime : R) (keys : Keys) (av : R) : R :=
  let av := if left keys then av + TURN_RATE * deltaTime else av in
  let av := if right keys then av - TURN_RATE * deltaTime else av in
  av.

(** 1. Rotation (Steering). *)
Definition rotation (deltaTime : R) (keys : Keys) (w : World) : World :=
  let av := steerInput deltaTime keys (angularVelocity w) in
  let av := av * ANGULAR_DRAG in
  mkWorld (velocity w) av (position w) (rotation_y w + av)
          (camera_position w) (camera_target w).

Definition forwardVector (w : World) : Vector3 :=
  applyAxisAngle (mkVector3 0 0 (-1)) (mkVector3 0 1 0) (rotation_y w).

(** 2. Acceleration (Force): the local [force]. *)
Definition force (keys : Keys) (w : World) : Vector3 :=
  let force := mkVector3 0 0 0 in
  let force :=
    if forward keys
    then add force (multiplyScalar (forwardVector w) ACCELERATION)
    else force in
  let force :=
    if backward keys
    then add force (multiplyScalar (forwardVector w) (- ACCELERATION * 0.5))
    else force in
  force.

(** The velocity after acceleration and drag, before the speed clamp. *)
Definition draggedVelocity (deltaTime : R) (keys : Keys) (w : World)
  : Vector3 :=
  let accelerationVector := divideScalar (force keys w) MASS in
  let v := add (velocity w) (multiplyScalar accelerationVector deltaTime) in
  multiplyScalar v DRAG.

(** The velocity on which the speed test of the frame is made: the heading
    has been advanced before the force is computed. *)
Definition preClampVelocity (deltaTime : R) (keys : Keys) (w : World)
  : Vector3 :=
  draggedVelocity deltaTime keys (rotation deltaTime keys w).

(** [if (velocity.length() > MAX_SPEED) velocity.setLength(MAX_SPEED)]. *)
Definition clampSpeed (v : Vector3) : Vector3 :=
  if Rgtb (length v) MAX_SPEED then setLength v MAX_SPEED else v.

(** 3. Update Velocity. *)
Definition acceleration (deltaTime : R) (keys : Keys) (w : World) : World :=
  set_velocity w (clampSpeed (draggedVelocity deltaTime keys w)).

(** 4. Update Position. *)
Definition updatePosition (deltaTime : R) (w : World) : World :=
  set_position w (add (position w) (multiplyScalar (velocity w) deltaTime)).

(** Camera Follow. *)
Definition cameraOffset (w : World) : Vector3 :=
  applyAxisAngle (mkVector3 0 5 10) (mkVector3 0 1 0) (rotation_y w).

Definition cameraFollow (w : World) : World :=
  mkWorld (velocity w) (angularVelocity w) (position w) (rotation_y w)
          (add (position w) (cameraOffset w)) (position w).

Definition runPhase (deltaTime : R) (keys : Keys) (w : World) (p : Phase)
  : World :=
  match p with
  | Rotation => rotation deltaTime keys w
  | Acceleration => acceleration deltaTime keys w
  | UpdatePosition => updatePosition deltaTime w
  | CameraFollow => cameraFollow w
  | BoundaryCheck => boundaryCheck w
  end.

(** A frame runs its phases in program order. *)
Definition runPhases (ps : list Phase) (deltaTime : R) (keys : Keys)
           (w : World) : World :=
  fold_left (runPhase deltaTime keys) ps w.

(** The globals once the position has been integrated: the state on which
    the camera and the boundary check of the frame work. *)
Definition translated (deltaTime : R) (keys : Keys) (w : World) : World :=
  updatePosition deltaTime
    (acceleration deltaTime keys (rotation deltaTime keys w)).

End Integrator.

(** ** Variant 1: the open field *)

Module OpenField.

Definition MASS : R := 10.
Definition ACCELERATION : R := 20.
Definition MAX_SPEED : R := 15.
Definition DRAG : R := 0.985.
Definition ANGULAR_DRAG : R := 0.95.
Definition TURN_RATE : R := 0.05.

Definition boundary : R := 48.

Definition outOfBounds (w : World) : bool :=
  Rgtb (Rabs (x (position w))) boundary
  || Rgtb (Rabs (z (position w))) boundary.

(** Simple boundary check: the velocity is bled off, nothing else. *)
Definition boundaryCheck (w : World) : World :=
  if outOfBounds w
  then set_velocity w (multiplyScalar (velocity w) 0.01)
  else w.

(** Program order of [updatePhysics]: the camera is placed before the
    boundary check. *)
Definition phases : list Phase :=
  [Rotation; Acceleration; UpdatePosition; CameraFollow; BoundaryCheck].

Definition updatePhysics (deltaTime : R) (keys : Keys) (w : World) : World :=
  runPhases MASS ACCELERATION MAX_SPEED DRAG ANGULAR_DRAG TURN_RATE
            boundaryCheck phases deltaTime keys w.

Definition translated (deltaTime : R) (keys : Keys) (w : World) : World :=
  translated MASS ACCELERATION MAX_SPEED DRAG ANGULAR_DRAG TURN_RATE
             deltaTime keys w.

Definition preClampVelocity (deltaTime : R) (keys : Keys) (w : World)
  : Vector3 :=
  preClampVelocity MASS ACCELERATION DRAG ANGULAR_DRAG TURN_RATE
                   deltaTime keys w.

End OpenField.

(** ** Variant 2: the circuit *)

Module Circuit.

Definition MASS : R := 10.
Definition ACCELERATION : R := 40.
Definition MAX_SPEED : R := 35.
Definition DRAG : R := 0.98.
Definition ANGULAR_DRAG : R := 0.95.
Definition TURN_RATE : R := 0.05.

Definition TRACK_RADIUS : R := 60.
Definition TRACK_WIDTH : R := 10.

Definition position2D (w : World) : Vector2 :=
  mkVector2 (x (position w)) (z (position w)).

Definition distanceToCenter (w : World) : R := length2 (position2D w).

(** One wall collision: the velocity is decayed, then [position.x] and
    [position.z] are assigned from [position2D.normalize()], which
    normalizes the shared vector [position2D] in place at each of its two
    calls.  The result carries the vector as the calls left it. *)
Definition snapTo (radius : R) (wp : World * Vector2) : World * Vector2 :=
  let (w, p) := wp in
  let w := set_velocity w (multiplyScalar (velocity w) 0.01) in
  let p := normalize2 p in
  let w := set_position w
             (mkVector3 (x2 p * radius) (y (position w)) (z (position w))) in
  let p := normalize2 p in
  let w := set_position w
             (mkVector3 (x (position w)) (y (position w)) (y2 p * radius)) in
  (w, p).

(** 5. Track Boundary Check (Collision Logic). *)
Definition boundaryCheck (w : World) : World :=
  let p := position2D w in
  let d := length2 p in
  let wp := (w, p) in
  let wp := if Rltb d TRACK_RADIUS then snapTo (TRACK_RADIUS + 0.1) wp
            else wp in
  let maxRadius := TRACK_RADIUS + TRACK_WIDTH in
  let wp := if Rgtb d maxRadius then snapTo (maxRadius - 0.1) wp
            else wp in
  fst wp.

(** Either wall is hit: the conditions of the two collision branches. *)
Definition offTrack (w : World) : bool :=
  Rltb (distanceToCenter w) TRACK_RADIUS
  || Rgtb (distanceToCenter w) (TRACK_RADIUS + TRACK_WIDTH).

(** Program order of [updatePhysics]: the camera is placed last. *)
Definition phases : list Phase :=
  [Rotation; Acceleration; UpdatePosition; BoundaryCheck; CameraFollow].

Definition updatePhysics (deltaTime : R) (keys : Keys) (w : World) : World :=
  runPhases MASS ACCELERATION MAX_SPEED DRAG ANGULAR_DRAG TURN_RATE
            boundaryCheck phases deltaTime keys w.

Definition translated (deltaTime : R) (keys : Keys) (w : World) : World :=
  translated MASS ACCELERATION MAX_SPEED DRAG ANGULAR_DRAG TURN_RATE
             deltaTime keys w.

Definition preClampVelocity (deltaTime : R) (keys : Keys) (w : World)
  : Vector3 :=
  preClampVelocity MASS ACCELERATION DRAG ANGULAR_DRAG TURN_RATE
                   deltaTime keys w.

End Circuit.


(** ** Notions the properties are stated with *)

(** Rotation about the vertical axis by [angle], as the usual matrix: the
    specification's reading of "rotate by the heading". *)
Definition rotateAboutVertical (angle : R) (v : Vector3) : Vector3 :=
  mkVector3 (x v * cos angle + z v * sin angle)
            (y v)
            (- x v * sin angle + z v * cos angle).

Definition speed (w : World) : R := length (velocity w).

(** The globals after [n] frames of a step function. *)
Fixpoint frames (step : World -> World) (n : nat) (w : World) : World :=
  match n with
  | O => w
  | S m => step (frames step m w)
  end.

(** Throttle-forward held, nothing else. *)
Definition forwardOnly : Keys := mkKeys true false false false.

(** The speed [e] at which one frame of thrust is undone by one frame of
    drag: [accel / mass * dt = e * (1 / drag - 1)]. *)
Definition equilibriumSpeed (mass accel drag deltaTime : R) : R :=
  accel / mass * deltaTime / (1 / drag - 1).

(** One frame of a speed [s] along the heading with the throttle held:
    thrust, drag, clamp. *)
Definition speedStep (mass accel maxSpeed drag deltaTime s : R) : R :=
  let u := (s + accel / mass * deltaTime) * drag in
  if Rgtb u maxSpeed then maxSpeed else u.

(** The speeds of a body that starts at rest and is pushed along its
    heading, frame after frame. *)
Fixpoint speedAfter (mass accel maxSpeed drag deltaTime : R) (n : nat) : R :=
  match n with
  | O => 0
  | S m => speedStep mass accel maxSpeed drag deltaTime
                     (speedAfter mass accel maxSpeed drag deltaTime m)
  end.

(** The sum of the first [n] of those speeds: the distance covered, per
    unit of frame time. *)
Fixpoint speedSum (mass accel maxSpeed drag deltaTime : R) (n : nat) : R :=
  match n with
  | O => 0
  | S m => speedSum mass accel maxSpeed drag deltaTime m
           + speedAfter mass accel maxSpeed drag deltaTime (S m)
  end.

(** The same speeds without the clamp. *)
Fixpoint unclampedSpeedAfter (mass accel drag deltaTime : R) (n : nat) : R :=
  match n with
  | O => 0
  | S m => (unclampedSpeedAfter mass accel drag deltaTime m
            + accel / mass * deltaTime) * drag
  end.

(** The horizontal unit vector of heading [h]: what [forwardVector] is for
    a body with that heading. *)
Definition headingVector (h : R) : Vector3 :=
  mkVector3 (- sin h) 0 (- cos h).

(** The body does not turn, has heading [h] and moves along it at speed
    [s]. *)
Definition alongHeading (h s : R) (w : World) : Prop :=
  angularVelocity w = 0
  /\ rotation_y w = h
  /\ velocity w = multiplyScalar (headingVector h) s.

(** No key held. *)
Definition noKeys : Keys := mkKeys false false false false.

(** A body at rest at position [p] with heading [h]; the camera as the
    constructor of the library leaves it, at the origin. *)
Definition restAt (p : Vector3) (h : R) : World :=
  mkWorld (mkVector3 0 0 0) 0 p h (mkVector3 0 0 0) (mkVector3 0 0 0).

(** The variant's boundary check leaves a frame alone. *)
Definition openFieldUntouched (deltaTime : R) (keys : Keys) (w : World)
  : Prop :=
  OpenField.outOfBounds (OpenField.translated deltaTime keys w) = false.

Definition circuitUntouched (deltaTime : R) (keys : Keys) (w : World)
  : Prop :=
  Circuit.offTrack (Circuit.translated deltaTime keys w) = false.

(** ** The rest of the script: input handlers, start-up, frame loop *)

(** The four controls of the input latch. *)
Inductive Control : Type :=
| Forward
| Backward
| TurnLeft
| TurnRight.

(** The case labels of [switch (event.key)], the same in [onKeyDown] and
    [onKeyUp]: three key names for each control, anything else falls
    through the switch. *)
Definition keyControl (key : string) : option Control :=
  if (key =? "w")%string || (key =? "W")%string || (key =? "ArrowUp")%string
  then Some Forward
  else if (key =? "s")%string || (key =? "S")%string
          || (key =? "ArrowDown")%string
  then Some Backward
  else if (key =? "a")%string || (key =? "A")%string
          || (key =? "ArrowLeft")%string
  then Some TurnLeft
  else if (key =? "d")%string || (key =? "D")%string
          || (key =? "ArrowRight")%string
  then Some TurnRight
  else None.

(** [keys.<control> = pressed]. *)
Definition setControl (c : Control) (pressed : bool) (keys : Keys) : Keys :=
  match c with
  | Forward => mkKeys pressed (backward keys) (left keys) (right keys)
  | Backward => mkKeys (forward keys) pressed (left keys) (right keys)
  | TurnLeft => mkKeys (forward keys) (backward keys) pressed (right keys)
  | TurnRight => mkKeys (forward keys) (backward keys) (left keys) pressed
  end.

Definition getControl (c : Control) (keys : Keys) : bool :=
  match c with
  | Forward => forward keys
  | Backward => backward keys
  | TurnLeft => left keys
  | TurnRight => right keys
  end.

Definition onKeyDown (key : string) (keys : Keys) : Keys :=
  match keyControl key with
  | Some c => setControl c true keys
  | None => keys
  end.

Definition onKeyUp (key : string) (keys : Keys) : Keys :=
  match keyControl key with
  | Some c => setControl c false keys
  | None => keys
  end.

(** What the browser delivers to the script: key events, and animation
    frames with the time [clock.getDelta()] reports for them. *)
Inductive Event : Type :=
| KeyDown (key : string)
| KeyUp (key : string)
| AnimationFrame (deltaTime : R).

(** One event on the latch and the globals; an animation frame is
    [animate]: it reads the frame time and calls [updatePhysics] (the
    rendering call writes none of the globals). *)
Definition dispatch (updatePhysics : R -> Keys -> World -> World)
           (g : Keys * World) (e : Event) : Keys * World :=
  match e with
  | KeyDown key => (onKeyDown key (fst g), snd g)
  | KeyUp key => (onKeyUp key (fst g), snd g)
  | AnimationFrame deltaTime => (fst g, updatePhysics deltaTime (fst g) (snd g))
  end.

(** The script from a state on, event after event. *)
Definition session (updatePhysics : R -> Keys -> World -> World)
           (events : list Event) (g : Keys * World) : Keys * World :=
  fold_left (dispatch updatePhysics) events g.

(** Frames only, each with its frame time and the latch as it is then. *)
Definition runFrames (updatePhysics : R -> Keys -> World -> World)
           (inputs : list (R * Keys)) (w : World) : World :=
  fold_left (fun w i => updatePhysics (fst i) (snd i) w) inputs w.

(** The open-field script: the state [init] leaves before the first frame,
    and the pillars it places, [random n] being the value of the [n]-th call
    of [Math.random()]. *)
Module OpenFieldScript.

Definition init : Keys * World := (noKeys, restAt (mkVector3 0 0.5 0) 0).

Definition obstacle (random : nat -> R) (i : nat) : Vector3 :=
  mkVector3 ((random (2 * i)%nat - 0.5) * 90)
            1.5
            ((random (2 * i + 1)%nat - 0.5) * 90).

Definition obstacles (random : nat -> R) : list Vector3 :=
  map (obstacle random) (seq 0 20).

Definition run (events : list Event) : Keys * World :=
  session OpenField.updatePhysics events init.

End OpenFieldScript.

(** The circuit script: [init] puts the player in the middle of the lane. *)
Module CircuitScript.

Definition init : Keys * World :=
  (noKeys,
   restAt (mkVector3 (Circuit.TRACK_RADIUS + Circuit.TRACK_WIDTH / 2) 0.5 0)
          0).

Definition run (events : list Event) : Keys * World :=
  session Circuit.updatePhysics events init.

End CircuitScript.

(** * Properties *)

(** ** Real comparisons as booleans *)

Lemma Rgtb_true (a b : R) : Rgtb a b = true <-> a > b.
Proof. unfold Rgtb; destruct (Rgt_dec a b); split; intros; auto; discriminate. Qed.

Lemma Rgtb_false (a b : R) : Rgtb a b = false <-> a <= b.
Proof.
  unfold Rgtb; destruct (Rgt_dec a b); split; intros; auto; try discriminate; lra.
Qed.

Lemma Rltb_true (a b : R) : Rltb a b = true <-> a < b.
Proof. unfold Rltb; destruct (Rlt_dec a b); split; intros; auto; discriminate. Qed.

Lemma Rltb_false (a b : R) : Rltb a b = false <-> b <= a.
Proof.
  unfold Rltb; destruct (Rlt_dec a b); split; intros; auto; try discriminate; lra.
Qed.

Lemma js_or_zero (b : R) : js_or 0 b = b.
Proof. unfold js_or; destruct (Req_dec_T 0 0); [reflexivity | contradiction]. Qed.

Lemma js_or_nonzero (a b : R) : a <> 0 -> js_or a b = a.
Proof. intros H; unfold js_or; destruct (Req_dec_T a 0); [contradiction | reflexivity]. Qed.

(** ** Vector algebra *)

Lemma Vector3_eq (v w : Vector3) :
  x v = x w -> y v = y w -> z v = z w -> v = w.
Proof. destruct v, w; simpl; intros; subst; reflexivity. Qed.

Lemma Vector2_eq (p q : Vector2) : x2 p = x2 q -> y2 p = y2 q -> p = q.
Proof. destruct p, q; simpl; intros; subst; reflexivity. Qed.

Lemma length_nonneg (v : Vector3) : 0 <= length v.
Proof. apply sqrt_pos. Qed.

Lemma length2_nonneg (p : Vector2) : 0 <= length2 p.
Proof. apply sqrt_pos. Qed.

Lemma length_multiplyScalar (v : Vector3) (s : R) :
  length (multiplyScalar v s) = Rabs s * length v.
Proof.
  unfold length, multiplyScalar; simpl.
  replace (x v * s * (x v * s) + y v * s * (y v * s) + z v * s * (z v * s))
    with (s² * (x v * x v + y v * y v + z v * z v)) by (unfold Rsqr; ring).
  rewrite sqrt_mult_alt by apply Rle_0_sqr.
  now rewrite sqrt_Rsqr_abs.
Qed.

Lemma length2_multiplyScalar2 (p : Vector2) (s : R) :
  length2 (multiplyScalar2 p s) = Rabs s * length2 p.
Proof.
  unfold length2, multiplyScalar2; simpl.
  replace (x2 p * s * (x2 p * s) + y2 p * s * (y2 p * s))
    with (s² * (x2 p * x2 p + y2 p * y2 p)) by (unfold Rsqr; ring).
  rewrite sqrt_mult_alt by apply Rle_0_sqr.
  now rewrite sqrt_Rsqr_abs.
Qed.

Lemma length_zero_iff (v : Vector3) :
  length v = 0 <-> v = mkVector3 0 0 0.
Proof.
  split.
  - intros H. unfold length in H.
    apply sqrt_eq_0 in H; [| nra].
    apply Vector3_eq; simpl; nra.
  - intros ->. unfold length; simpl.
    replace (0 * 0 + 0 * 0 + 0 * 0) with 0 by ring. apply sqrt_0.
Qed.

Lemma length2_zero_iff (p : Vector2) :
  length2 p = 0 <-> p = mkVector2 0 0.
Proof.
  split.
  - intros H. unfold length2 in H.
    apply sqrt_eq_0 in H; [| nra].
    apply Vector2_eq; simpl; nra.
  - intros ->. unfold length2; simpl.
    replace (0 * 0 + 0 * 0) with 0 by ring. apply sqrt_0.
Qed.

(** [setLength] scales by [l / length]: same direction, new length. *)
Lemma setLength_scale (v : Vector3) (l : R) :
  length v <> 0 -> setLength v l = multiplyScalar v (l / length v).
Proof.
  intros H. unfold setLength, normalize, divideScalar.
  rewrite js_or_nonzero by assumption.
  apply Vector3_eq; simpl; field; assumption.
Qed.

Lemma length_setLength (v : Vector3) (l : R) :
  length v <> 0 -> 0 <= l -> length (setLength v l) = l.
Proof.
  intros H Hl. rewrite setLength_scale by assumption.
  rewrite length_multiplyScalar.
  pose proof (length_nonneg v) as Hv.
  assert (0 < length v) by lra.
  rewrite Rabs_right.
  - field; assumption.
  - apply Rle_ge. apply Rmult_le_pos; [assumption|].
    left; now apply Rinv_0_lt_compat.
Qed.

(** Normalizing a non-zero 2D vector divides it by its length; normalizing
    again changes nothing. *)
Lemma normalize2_nonzero (p : Vector2) :
  length2 p <> 0 -> normalize2 p = multiplyScalar2 p (1 / length2 p).
Proof. intros H. unfold normalize2. now rewrite js_or_nonzero. Qed.

Lemma length2_normalize2 (p : Vector2) :
  length2 p <> 0 -> length2 (normalize2 p) = 1.
Proof.
  intros H. rewrite normalize2_nonzero by assumption.
  rewrite length2_multiplyScalar2.
  pose proof (length2_nonneg p).
  assert (0 < length2 p) by lra.
  rewrite Rabs_right.
  - field; assumption.
  - apply Rle_ge. unfold Rdiv. rewrite Rmult_1_l. left; now apply Rinv_0_lt_compat.
Qed.

Lemma normalize2_idempotent (p : Vector2) :
  normalize2 (normalize2 p) = normalize2 p.
Proof.
  destruct (Req_dec_T (length2 p) 0) as [H0 | Hn].
  - apply length2_zero_iff in H0. subst p.
    assert (E : normalize2 (mkVector2 0 0) = mkVector2 0 0).
    { unfold normalize2, multiplyScalar2; simpl. f_equal; ring. }
    now rewrite !E.
  - unfold normalize2 at 1. rewrite length2_normalize2 by assumption.
    rewrite js_or_nonzero by lra.
    generalize (normalize2 p); intros q.
    apply Vector2_eq; simpl; field.
Qed.

Lemma normalize2_zero : normalize2 (mkVector2 0 0) = mkVector2 0 0.
Proof. unfold normalize2, multiplyScalar2; simpl. f_equal; ring. Qed.

(** ** Rotation about the vertical axis *)

(** The quaternion product of the library is the rotation matrix. *)
Lemma applyAxisAngle_vertical (v : Vector3) (angle : R) :
  applyAxisAngle v (mkVector3 0 1 0) angle = rotateAboutVertical angle v.
Proof.
  unfold applyAxisAngle, applyQuaternion, setFromAxisAngle, rotateAboutVertical.
  cbn [x y z qx qy qz qw].
  replace (cos angle) with (cos (2 * (angle / 2))) by (f_equal; field).
  replace (sin angle) with (sin (2 * (angle / 2))) by (f_equal; field).
  rewrite cos_2a, sin_2a.
  pose proof (sin2_cos2 (angle / 2)) as H. unfold Rsqr in H.
  apply Vector3_eq; cbn [x y z]; try ring.
  transitivity (y v * (sin (angle / 2) * sin (angle / 2)
                       + cos (angle / 2) * cos (angle / 2))); [ring |].
  rewrite H; ring.
Qed.

Lemma sin_period_Z (a : R) (k : Z) : sin (a + 2 * IZR k * PI) = sin a.
Proof.
  destruct (Z_le_gt_dec 0 k) as [Hk | Hk].
  - rewrite <- (Z2Nat.id k) by assumption. rewrite <- INR_IZR_INZ.
    apply sin_period.
  - rewrite <- (sin_period (a + 2 * IZR k * PI) (Z.to_nat (- k))).
    rewrite INR_IZR_INZ, Z2Nat.id by lia. rewrite opp_IZR.
    f_equal; ring.
Qed.

Lemma cos_period_Z (a : R) (k : Z) : cos (a + 2 * IZR k * PI) = cos a.
Proof.
  destruct (Z_le_gt_dec 0 k) as [Hk | Hk].
  - rewrite <- (Z2Nat.id k) by assumption. rewrite <- INR_IZR_INZ.
    apply cos_period.
  - rewrite <- (cos_period (a + 2 * IZR k * PI) (Z.to_nat (- k))).
    rewrite INR_IZR_INZ, Z2Nat.id by lia. rewrite opp_IZR.
    f_equal; ring.
Qed.

Lemma rotateAboutVertical_period (angle : R) (k : Z) (v : Vector3) :
  rotateAboutVertical (angle + 2 * IZR k * PI) v = rotateAboutVertical angle v.
Proof.
  unfold rotateAboutVertical. now rewrite sin_period_Z, cos_period_Z.
Qed.

Lemma length_rotateAboutVertical (angle : R) (v : Vector3) :
  length (rotateAboutVertical angle v) = length v.
Proof.
  unfold length, rotateAboutVertical; cbn [x y z]. f_equal.
  pose proof (sin2_cos2 angle) as H. unfold Rsqr in H.
  transitivity ((x v * x v + z v * z v)
                * (sin angle * sin angle + cos angle * cos angle)
                + y v * y v); [ring |].
  rewrite H; ring.
Qed.

(** ** One frame, statement by statement *)

Section IntegratorFacts.

Variables MASS ACCELERATION MAX_SPEED DRAG ANGULAR_DRAG TURN_RATE : R.

Local Abbreviation rotation' := (rotation ANGULAR_DRAG TURN_RATE).
Local Abbreviation force' := (force ACCELERATION).
Local Abbreviation draggedVelocity' := (draggedVelocity MASS ACCELERATION DRAG).
Local Abbreviation clampSpeed' := (clampSpeed MAX_SPEED).
Local Abbreviation acceleration' := (acceleration MASS ACCELERATION MAX_SPEED DRAG).
Local Abbreviation translated' :=
  (translated MASS ACCELERATION MAX_SPEED DRAG ANGULAR_DRAG TURN_RATE).

Lemma forwardVector_eq (w : World) :
  forwardVector w = mkVector3 (- sin (rotation_y w)) 0 (- cos (rotation_y w)).
Proof.
  unfold forwardVector. rewrite applyAxisAngle_vertical.
  unfold rotateAboutVertical; cbn [x y z]. apply Vector3_eq; cbn [x y z]; ring.
Qed.

Lemma length_forwardVector (w : World) : length (forwardVector w) = 1.
Proof.
  unfold forwardVector. rewrite applyAxisAngle_vertical, length_rotateAboutVertical.
  unfold length; cbn [x y z].
  replace (0 * 0 + 0 * 0 + -1 * -1) with 1 by ring. apply sqrt_1.
Qed.

Lemma force_vertical (keys : Keys) (w : World) : y (force' keys w) = 0.
Proof.
  unfold force. rewrite forwardVector_eq.
  destruct (forward keys), (backward keys); cbn [add multiplyScalar x y z]; ring.
Qed.

Lemma cameraOffset_eq (w : World) :
  cameraOffset w = rotateAboutVertical (rotation_y w) (mkVector3 0 5 10).
Proof. unfold cameraOffset. apply applyAxisAngle_vertical. Qed.

(** The heading and the angular velocity are written by the rotation
    statement only. *)
Lemma translated_rotation_y (deltaTime : R) (keys : Keys) (w : World) :
  rotation_y (translated' deltaTime keys w)
  = rotation_y w
    + steerInput TURN_RATE deltaTime keys (angularVelocity w) * ANGULAR_DRAG.
Proof. reflexivity. Qed.

Lemma translated_angularVelocity (deltaTime : R) (keys : Keys) (w : World) :
  angularVelocity (translated' deltaTime keys w)
  = steerInput TURN_RATE deltaTime keys (angularVelocity w) * ANGULAR_DRAG.
Proof. reflexivity. Qed.

Lemma translated_velocity (deltaTime : R) (keys : Keys) (w : World) :
  velocity (translated' deltaTime keys w)
  = clampSpeed' (draggedVelocity' deltaTime keys (rotation' deltaTime keys w)).
Proof. reflexivity. Qed.

Lemma translated_position (deltaTime : R) (keys : Keys) (w : World) :
  position (translated' deltaTime keys w)
  = add (position w)
        (multiplyScalar (velocity (translated' deltaTime keys w)) deltaTime).
Proof. reflexivity. Qed.

(** The speed clamp. *)
Lemma clampSpeed_unchanged (v : Vector3) :
  length v <= MAX_SPEED -> clampSpeed' v = v.
Proof.
  intros H. unfold clampSpeed.
  now rewrite (proj2 (Rgtb_false _ _) H).
Qed.

Lemma clampSpeed_rescaled (v : Vector3) :
  length v > MAX_SPEED -> clampSpeed' v = setLength v MAX_SPEED.
Proof.
  intros H. unfold clampSpeed.
  now rewrite (proj2 (Rgtb_true _ _) H).
Qed.

Lemma clampSpeed_bound (v : Vector3) :
  0 <= MAX_SPEED -> length (clampSpeed' v) <= MAX_SPEED.
Proof.
  intros HM.
  destruct (Rgt_dec (length v) MAX_SPEED) as [H | H].
  - rewrite clampSpeed_rescaled by assumption.
    rewrite length_setLength; lra.
  - rewrite clampSpeed_unchanged by lra. lra.
Qed.

Lemma clampSpeed_vertical (v : Vector3) :
  y v = 0 -> y (clampSpeed' v) = 0.
Proof.
  intros H. unfold clampSpeed.
  destruct (Rgtb (length v) MAX_SPEED); [| assumption].
  unfold setLength, normalize, divideScalar, multiplyScalar; cbn [x y z].
  rewrite H; ring.
Qed.

Lemma translated_velocity_vertical (deltaTime : R) (keys : Keys) (w : World) :
  y (velocity w) = 0 -> y (velocity (translated' deltaTime keys w)) = 0.
Proof.
  intros H. rewrite translated_velocity. apply clampSpeed_vertical.
  unfold draggedVelocity, divideScalar.
  cbn [add multiplyScalar x y z].
  rewrite force_vertical. cbn [rotation velocity]. rewrite H. ring.
Qed.

(** With the throttle released the force is zero. *)
Lemma force_released (keys : Keys) (w : World) :
  forward keys = false -> backward keys = false ->
  force' keys w = mkVector3 0 0 0.
Proof. intros Hf Hb. unfold force. now rewrite Hf, Hb. Qed.

Lemma draggedVelocity_released (deltaTime : R) (keys : Keys) (w : World) :
  forward keys = false -> backward keys = false ->
  draggedVelocity' deltaTime keys w = multiplyScalar (velocity w) DRAG.
Proof.
  intros Hf Hb. unfold draggedVelocity. rewrite force_released by assumption.
  apply Vector3_eq; cbn [add multiplyScalar divideScalar x y z]; ring.
Qed.

(** A body at rest with the throttle released stays where it is. *)
Lemma translated_rest (deltaTime : R) (keys : Keys) (w : World) :
  0 <= MAX_SPEED ->
  velocity w = mkVector3 0 0 0 ->
  forward keys = false -> backward keys = false ->
  velocity (translated' deltaTime keys w) = mkVector3 0 0 0
  /\ position (translated' deltaTime keys w) = position w.
Proof.
  intros HM Hv Hf Hb.
  assert (E : velocity (translated' deltaTime keys w) = mkVector3 0 0 0).
  { rewrite translated_velocity, draggedVelocity_released by assumption.
    cbn [rotation velocity]. rewrite Hv.
    assert (Z : multiplyScalar (mkVector3 0 0 0) DRAG = mkVector3 0 0 0)
      by (apply Vector3_eq; cbn [multiplyScalar x y z]; ring).
    rewrite Z. apply clampSpeed_unchanged.
    rewrite (proj2 (length_zero_iff _) eq_refl). assumption. }
  split; [assumption |].
  rewrite translated_position, E.
  apply Vector3_eq; cbn [add multiplyScalar x y z rotation acceleration
                         set_velocity position]; ring.
Qed.

End IntegratorFacts.

(** ** The two variants *)

Lemma openField_updatePhysics_eq (deltaTime : R) (keys : Keys) (w : World) :
  OpenField.updatePhysics deltaTime keys w
  = OpenField.boundaryCheck
      (cameraFollow (OpenField.translated deltaTime keys w)).
Proof. reflexivity. Qed.

Lemma circuit_updatePhysics_eq (deltaTime : R) (keys : Keys) (w : World) :
  Circuit.updatePhysics deltaTime keys w
  = cameraFollow (Circuit.boundaryCheck (Circuit.translated deltaTime keys w)).
Proof. reflexivity. Qed.

(** The open-field check writes the velocity and nothing else. *)
Lemma openField_boundaryCheck_frame (w : World) :
  position (OpenField.boundaryCheck w) = position w
  /\ rotation_y (OpenField.boundaryCheck w) = rotation_y w
  /\ angularVelocity (OpenField.boundaryCheck w) = angularVelocity w
  /\ camera_position (OpenField.boundaryCheck w) = camera_position w.
Proof.
  unfold OpenField.boundaryCheck.
  destruct (OpenField.outOfBounds w); repeat split; reflexivity.
Qed.

Lemma openField_boundaryCheck_hit (w : World) :
  OpenField.outOfBounds w = true ->
  OpenField.boundaryCheck w = set_velocity w (multiplyScalar (velocity w) 0.01).
Proof. intros H. unfold OpenField.boundaryCheck. now rewrite H. Qed.

Lemma openField_boundaryCheck_miss (w : World) :
  OpenField.outOfBounds w = false -> OpenField.boundaryCheck w = w.
Proof. intros H. unfold OpenField.boundaryCheck. now rewrite H. Qed.

Lemma openField_outOfBounds_true (w : World) :
  OpenField.outOfBounds w = true
  <-> Rabs (x (position w)) > OpenField.boundary
      \/ Rabs (z (position w)) > OpenField.boundary.
Proof.
  unfold OpenField.outOfBounds. rewrite orb_true_iff, !Rgtb_true. tauto.
Qed.

(** The circuit check: the three cases of the two collision branches. *)
Lemma circuit_boundaryCheck_inner (w : World) :
  Circuit.distanceToCenter w < Circuit.TRACK_RADIUS ->
  Circuit.boundaryCheck w
  = fst (Circuit.snapTo (Circuit.TRACK_RADIUS + 0.1) (w, Circuit.position2D w)).
Proof.
  intros H. unfold Circuit.boundaryCheck.
  fold (Circuit.distanceToCenter w).
  rewrite (proj2 (Rltb_true _ _) H).
  assert (Hle : Circuit.distanceToCenter w
                <= Circuit.TRACK_RADIUS + Circuit.TRACK_WIDTH)
    by (unfold Circuit.TRACK_RADIUS, Circuit.TRACK_WIDTH in *; lra).
  now rewrite (proj2 (Rgtb_false _ _) Hle).
Qed.

Lemma circuit_boundaryCheck_outer (w : World) :
  Circuit.distanceToCenter w > Circuit.TRACK_RADIUS + Circuit.TRACK_WIDTH ->
  Circuit.boundaryCheck w
  = fst (Circuit.snapTo (Circuit.TRACK_RADIUS + Circuit.TRACK_WIDTH - 0.1)
                        (w, Circuit.position2D w)).
Proof.
  intros H. unfold Circuit.boundaryCheck.
  fold (Circuit.distanceToCenter w).
  assert (Hge : Circuit.TRACK_RADIUS <= Circuit.distanceToCenter w)
    by (unfold Circuit.TRACK_RADIUS, Circuit.TRACK_WIDTH in *; lra).
  rewrite (proj2 (Rltb_false _ _) Hge).
  now rewrite (proj2 (Rgtb_true _ _) H).
Qed.

Lemma circuit_boundaryCheck_miss (w : World) :
  Circuit.offTrack w = false -> Circuit.boundaryCheck w = w.
Proof.
  unfold Circuit.offTrack. intros H. apply orb_false_iff in H as [H1 H2].
  unfold Circuit.boundaryCheck. fold (Circuit.distanceToCenter w).
  now rewrite H1, H2.
Qed.

Lemma circuit_offTrack_cases (w : World) :
  Circuit.offTrack w = false
  \/ Circuit.distanceToCenter w < Circuit.TRACK_RADIUS
  \/ Circuit.distanceToCenter w > Circuit.TRACK_RADIUS + Circuit.TRACK_WIDTH.
Proof.
  unfold Circuit.offTrack.
  destruct (Rlt_dec (Circuit.distanceToCenter w) Circuit.TRACK_RADIUS) as [H | H];
    [right; left; assumption |].
  destruct (Rgt_dec (Circuit.distanceToCenter w)
                    (Circuit.TRACK_RADIUS + Circuit.TRACK_WIDTH)) as [H' | H'];
    [right; right; assumption |].
  left. apply orb_false_iff; split;
    [apply Rltb_false | apply Rgtb_false]; lra.
Qed.

(** What a snap writes. *)
Lemma circuit_snapTo_world (radius : R) (w : World) :
  let w' := fst (Circuit.snapTo radius (w, Circuit.position2D w)) in
  velocity w' = multiplyScalar (velocity w) 0.01
  /\ angularVelocity w' = angularVelocity w
  /\ rotation_y w' = rotation_y w
  /\ camera_position w' = camera_position w
  /\ x (position w') = x2 (normalize2 (Circuit.position2D w)) * radius
  /\ y (position w') = y (position w)
  /\ z (position w') = y2 (normalize2 (Circuit.position2D w)) * radius.
Proof.
  cbn [Circuit.snapTo fst set_velocity set_position velocity angularVelocity
       rotation_y camera_position position x y z].
  rewrite normalize2_idempotent. repeat split; reflexivity.
Qed.

(** The circuit check writes the velocity and the horizontal position. *)
Lemma circuit_boundaryCheck_frame (w : World) :
  rotation_y (Circuit.boundaryCheck w) = rotation_y w
  /\ angularVelocity (Circuit.boundaryCheck w) = angularVelocity w
  /\ y (position (Circuit.boundaryCheck w)) = y (position w)
  /\ (velocity (Circuit.boundaryCheck w) = velocity w
      \/ velocity (Circuit.boundaryCheck w) = multiplyScalar (velocity w) 0.01).
Proof.
  destruct (circuit_offTrack_cases w) as [H | [H | H]].
  - rewrite circuit_boundaryCheck_miss by assumption. tauto.
  - rewrite circuit_boundaryCheck_inner by assumption.
    destruct (circuit_snapTo_world (Circuit.TRACK_RADIUS + 0.1) w)
      as (Hv & Ha & Hr & _ & _ & Hy & _). tauto.
  - rewrite circuit_boundaryCheck_outer by assumption.
    destruct (circuit_snapTo_world
                (Circuit.TRACK_RADIUS + Circuit.TRACK_WIDTH - 0.1) w)
      as (Hv & Ha & Hr & _ & _ & Hy & _). tauto.
Qed.

(** ** Steering and heading *)

Lemma openField_step_heading (deltaTime : R) (keys : Keys) (w : World) :
  angularVelocity (OpenField.updatePhysics deltaTime keys w)
  = steerInput OpenField.TURN_RATE deltaTime keys (angularVelocity w)
    * OpenField.ANGULAR_DRAG
  /\ rotation_y (OpenField.updatePhysics deltaTime keys w)
     = rotation_y w
       + steerInput OpenField.TURN_RATE deltaTime keys (angularVelocity w)
         * OpenField.ANGULAR_DRAG.
Proof.
  rewrite openField_updatePhysics_eq.
  destruct (openField_boundaryCheck_frame
              (cameraFollow (OpenField.translated deltaTime keys w)))
    as (_ & Hr & Ha & _).
  rewrite Hr, Ha. split; reflexivity.
Qed.

Lemma circuit_step_heading (deltaTime : R) (keys : Keys) (w : World) :
  angularVelocity (Circuit.updatePhysics deltaTime keys w)
  = steerInput Circuit.TURN_RATE deltaTime keys (angularVelocity w)
    * Circuit.ANGULAR_DRAG
  /\ rotation_y (Circuit.updatePhysics deltaTime keys w)
     = rotation_y w
       + steerInput Circuit.TURN_RATE deltaTime keys (angularVelocity w)
         * Circuit.ANGULAR_DRAG.
Proof.
  rewrite circuit_updatePhysics_eq.
  destruct (circuit_boundaryCheck_frame
              (Circuit.translated deltaTime keys w)) as (Hr & Ha & _).
  cbn [cameraFollow angularVelocity rotation_y].
  rewrite Hr, Ha. split; reflexivity.
Qed.

(** C8. In every step of both variants the heading is advanced by the
    angular velocity as it is after the angular-drag multiplication, added
    directly and not multiplied by the frame time: new heading = old heading
    + new angular velocity, where the new angular velocity is the steered
    angular velocity times ANGULAR_DRAG, for every frame time and input
    state. *)
Theorem heading_accumulates_angular_velocity :
  forall (deltaTime : R) (keys : Keys) (w : World),
    (let w' := OpenField.updatePhysics deltaTime keys w in
     angularVelocity w'
     = steerInput OpenField.TURN_RATE deltaTime keys (angularVelocity w)
       * OpenField.ANGULAR_DRAG
     /\ rotation_y w' = rotation_y w + angularVelocity w')
    /\
    (let w' := Circuit.updatePhysics deltaTime keys w in
     angularVelocity w'
     = steerInput Circuit.TURN_RATE deltaTime keys (angularVelocity w)
       * Circuit.ANGULAR_DRAG
     /\ rotation_y w' = rotation_y w + angularVelocity w').
Proof.
  intros deltaTime keys w. split; cbv zeta.
  - destruct (openField_step_heading deltaTime keys w) as [Ha Hr].
    rewrite Hr, Ha. split; reflexivity.
  - destruct (circuit_step_heading deltaTime keys w) as [Ha Hr].
    rewrite Hr, Ha. split; reflexivity.
Qed.



(** ** The chase camera *)

Lemma openField_step_camera (deltaTime : R) (keys : Keys) (w : World) :
  let w' := OpenField.updatePhysics deltaTime keys w in
  camera_position w' = add (position w') (cameraOffset w')
  /\ position w' = position (OpenField.translated deltaTime keys w).
Proof.
  cbv zeta. rewrite openField_updatePhysics_eq.
  destruct (openField_boundaryCheck_frame
              (cameraFollow (OpenField.translated deltaTime keys w)))
    as (Hp & Hr & _ & Hc).
  unfold cameraOffset. rewrite Hp, Hr, Hc. split; reflexivity.
Qed.

Lemma circuit_step_camera (deltaTime : R) (keys : Keys) (w : World) :
  let w' := Circuit.updatePhysics deltaTime keys w in
  camera_position w' = add (position w') (cameraOffset w')
  /\ position w'
     = position (Circuit.boundaryCheck (Circuit.translated deltaTime keys w)).
Proof. cbv zeta. rewrite circuit_updatePhysics_eq. split; reflexivity. Qed.


(** C5, as the claim states it, fails: in the open-field variant the camera
    is placed before the boundary check, so "camera follow executes after
    the boundary policy" does not hold in both variants. *)
Lemma camera_after_boundary_counterexample :
  ~ (runsAfter CameraFollow BoundaryCheck OpenField.phases = true
     /\ runsAfter CameraFollow BoundaryCheck Circuit.phases = true).
Proof. intros [H _]. vm_compute in H. discriminate H. Qed.

(** C5, amended.  In both variants the camera-follow computation runs in
    every frame, whatever the state and the input: it is one of the phases
    of the frame's fixed program.  In the circuit variant it executes after
    the boundary policy; in the open-field variant it executes before the
    boundary check, which changes neither the position nor the heading.  So
    in both variants the camera position at the end of the frame is derived
    from the body position as the boundary policy of that frame leaves
    it. *)
Theorem camera_follows_corrected_position :
  (In CameraFollow OpenField.phases /\ In CameraFollow Circuit.phases)
  /\ runsAfter CameraFollow BoundaryCheck Circuit.phases = true
  /\ runsAfter BoundaryCheck CameraFollow OpenField.phases = true
  /\ (forall w : World,
         position (OpenField.boundaryCheck w) = position w
         /\ rotation_y (OpenField.boundaryCheck w) = rotation_y w)
  /\ (forall (deltaTime : R) (keys : Keys) (w : World),
         let w' := OpenField.updatePhysics deltaTime keys w in
         camera_position w' = add (position w') (cameraOffset w')
         /\ position w' = position (OpenField.translated deltaTime keys w))
  /\ (forall (deltaTime : R) (keys : Keys) (w : World),
         let w' := Circuit.updatePhysics deltaTime keys w in
         camera_position w' = add (position w') (cameraOffset w')
         /\ position w'
            = position (Circuit.boundaryCheck
                          (Circuit.translated deltaTime keys w))).
Proof.
  split; [split; simpl; tauto |].
  split; [reflexivity |]. split; [reflexivity |].
  split; [| split].
  - intros w. destruct (openField_boundaryCheck_frame w) as (Hp & Hr & _).
    split; assumption.
  - apply openField_step_camera.
  - apply circuit_step_camera.
Qed.

(** ** The vertical components *)

Lemma multiplyScalar_vertical (v : Vector3) (s : R) :
  y v = 0 -> y (multiplyScalar v s) = 0.
Proof. intros H. cbn [multiplyScalar y]. rewrite H. ring. Qed.

(** C10. In both variants every step preserves "the vertical component of
    the velocity is zero" and leaves the vertical position of the body
    unchanged: the forward vector, (0, 0, -1) rotated about the vertical
    axis, has zero y-component, so force, drag and the speed clamp keep
    velocity.y = 0, and the boundary policies write only the x and z
    coordinates of the position. *)
Theorem vertical_components_preserved :
  forall (deltaTime : R) (keys : Keys) (w : World),
    y (velocity w) = 0 ->
    y (forwardVector (OpenField.translated deltaTime keys w)) = 0
    /\ y (forwardVector (Circuit.translated deltaTime keys w)) = 0
    /\ (y (velocity (OpenField.updatePhysics deltaTime keys w)) = 0
        /\ y (position (OpenField.updatePhysics deltaTime keys w))
           = y (position w))
    /\ (y (velocity (Circuit.updatePhysics deltaTime keys w)) = 0
        /\ y (position (Circuit.updatePhysics deltaTime keys w))
           = y (position w)).
Proof.
  intros deltaTime keys w Hv.
  split; [rewrite forwardVector_eq; reflexivity |].
  split; [rewrite forwardVector_eq; reflexivity |].
  assert (Ho : y (velocity (OpenField.translated deltaTime keys w)) = 0)
    by (apply translated_velocity_vertical; assumption).
  assert (Hc : y (velocity (Circuit.translated deltaTime keys w)) = 0)
    by (apply translated_velocity_vertical; assumption).
  split; split.
  - rewrite openField_updatePhysics_eq. unfold OpenField.boundaryCheck.
    destruct (OpenField.outOfBounds _);
      cbn [set_velocity cameraFollow velocity];
      [apply multiplyScalar_vertical |]; assumption.
  - destruct (openField_step_camera deltaTime keys w) as [_ Hp].
    cbv zeta in Hp. rewrite Hp.
    unfold OpenField.translated. rewrite translated_position.
    cbn [add multiplyScalar y].
    unfold OpenField.translated in Ho. rewrite Ho. ring.
  - rewrite circuit_updatePhysics_eq. cbn [cameraFollow velocity].
    destruct (circuit_boundaryCheck_frame
                (Circuit.translated deltaTime keys w))
      as (_ & _ & _ & [E | E]); rewrite E;
      [| apply multiplyScalar_vertical]; assumption.
  - rewrite circuit_updatePhysics_eq. cbn [cameraFollow position].
    destruct (circuit_boundaryCheck_frame
                (Circuit.translated deltaTime keys w)) as (_ & _ & Hy & _).
    rewrite Hy. unfold Circuit.translated. rewrite translated_position.
    cbn [add multiplyScalar y].
    unfold Circuit.translated in Hc. rewrite Hc. ring.
Qed.

Lemma vertical_components_preserved_witness :
  let keys := mkKeys true false true false in
  let w := mkWorld (mkVector3 3 0 (-4)) 0.1 (mkVector3 62 0.5 1) 0.7
                   (mkVector3 0 0 0) (mkVector3 0 0 0) in
  y (velocity w) = 0
  /\ y (velocity (OpenField.updatePhysics 0.016 keys w)) = 0
  /\ y (position (OpenField.updatePhysics 0.016 keys w)) = 0.5
  /\ y (velocity (Circuit.updatePhysics 0.016 keys w)) = 0
  /\ y (position (Circuit.updatePhysics 0.016 keys w)) = 0.5.
Proof.
  cbv zeta.
  pose proof (vertical_components_preserved 0.016
                (mkKeys true false true false)
                (mkWorld (mkVector3 3 0 (-4)) 0.1 (mkVector3 62 0.5 1) 0.7
                         (mkVector3 0 0 0) (mkVector3 0 0 0))
                eq_refl) as (_ & _ & [Hov Hop] & [Hcv Hcp]).
  repeat split; assumption.
Defined.

(** ** The open-field boundary *)



(** ** The circuit walls *)

Lemma circuit_translated_rest (deltaTime : R) (p : Vector3) (h : R) :
  velocity (Circuit.translated deltaTime noKeys (restAt p h)) = mkVector3 0 0 0
  /\ position (Circuit.translated deltaTime noKeys (restAt p h)) = p.
Proof.
  apply (translated_rest Circuit.MASS Circuit.ACCELERATION Circuit.MAX_SPEED
           Circuit.DRAG Circuit.ANGULAR_DRAG Circuit.TURN_RATE deltaTime
           noKeys (restAt p h)); try reflexivity.
  unfold Circuit.MAX_SPEED; lra.
Qed.

Lemma length2_components (a b : R) :
  length2 (mkVector2 a b) = sqrt (a * a + b * b).
Proof. reflexivity. Qed.

Lemma length2_on_x_axis (a : R) : length2 (mkVector2 a 0) = Rabs a.
Proof.
  rewrite length2_components.
  replace (a * a + 0 * 0) with (a²) by (unfold Rsqr; ring).
  apply sqrt_Rsqr_abs.
Qed.

Lemma length2_on_y_axis (a : R) : length2 (mkVector2 0 a) = Rabs a.
Proof.
  rewrite length2_components.
  replace (0 * 0 + a * a) with (a²) by (unfold Rsqr; ring).
  apply sqrt_Rsqr_abs.
Qed.

(** A snap of a body off the centre puts it at the given radius on the ray
    from the centre through its old horizontal position. *)
Lemma circuit_snapTo_radial (radius : R) (w : World) :
  0 < Circuit.distanceToCenter w -> 0 <= radius ->
  let w' := fst (Circuit.snapTo radius (w, Circuit.position2D w)) in
  x (position w') = x (position w) * (radius / Circuit.distanceToCenter w)
  /\ z (position w') = z (position w) * (radius / Circuit.distanceToCenter w)
  /\ Circuit.distanceToCenter w' = radius.
Proof.
  intros Hd Hr w'.
  destruct (circuit_snapTo_world radius w) as (_ & _ & _ & _ & Hx & _ & Hz).
  fold w' in Hx, Hz.
  assert (Hn : length2 (Circuit.position2D w) <> 0)
    by (unfold Circuit.distanceToCenter in Hd; lra).
  rewrite normalize2_nonzero in Hx, Hz by assumption.
  cbn [multiplyScalar2 x2 y2 Circuit.position2D] in Hx, Hz.
  fold (Circuit.position2D w) in Hx, Hz.
  fold (Circuit.distanceToCenter w) in Hx, Hz, Hn.
  assert (Ex : x (position w')
               = x (position w) * (radius / Circuit.distanceToCenter w))
    by (rewrite Hx; field; assumption).
  assert (Ez : z (position w')
               = z (position w) * (radius / Circuit.distanceToCenter w))
    by (rewrite Hz; field; assumption).
  split; [assumption |]. split; [assumption |].
  assert (E : Circuit.position2D w'
              = multiplyScalar2 (Circuit.position2D w)
                                (radius / Circuit.distanceToCenter w)).
  { apply Vector2_eq; cbn [Circuit.position2D multiplyScalar2 x2 y2];
      assumption. }
  unfold Circuit.distanceToCenter at 1. rewrite E, length2_multiplyScalar2.
  fold (Circuit.distanceToCenter w).
  rewrite Rabs_right.
  - field; assumption.
  - apply Rle_ge. apply Rmult_le_pos; [assumption |].
    left; now apply Rinv_0_lt_compat.
Qed.



(** C9. In the circuit variant, when the horizontal position after the
    translation is exactly the track centre (distance 0), the boundary step
    is defined: normalizing the zero-length radial vector gives the zero
    vector, the inner-wall branch runs, the snap assigns the scaled zero
    coordinates, so the body stays at radius 0 and is not moved to radius
    TRACK_RADIUS + 0.1, and the velocity is still multiplied by 0.01. *)
Theorem circuit_centre_is_degenerate :
  forall (deltaTime : R) (keys : Keys) (w : World),
    let t := Circuit.translated deltaTime keys w in
    let w' := Circuit.updatePhysics deltaTime keys w in
    Circuit.distanceToCenter t = 0 ->
    normalize2 (Circuit.position2D t) = mkVector2 0 0
    /\ velocity w' = multiplyScalar (velocity t) 0.01
    /\ x (position w') = 0
    /\ z (position w') = 0
    /\ Circuit.distanceToCenter w' = 0
    /\ Circuit.distanceToCenter w' <> Circuit.TRACK_RADIUS + 0.1.
Proof.
  intros deltaTime keys w t w' Hd.
  assert (Hw' : w' = cameraFollow (Circuit.boundaryCheck t)) by reflexivity.
  assert (Hp : Circuit.position2D t = mkVector2 0 0)
    by (apply length2_zero_iff; exact Hd).
  assert (Hn : normalize2 (Circuit.position2D t) = mkVector2 0 0)
    by (rewrite Hp; apply normalize2_zero).
  destruct (circuit_snapTo_world (Circuit.TRACK_RADIUS + 0.1) t)
    as (Hv & _ & _ & _ & Hx & _ & Hz).
  rewrite Hn in Hx, Hz. cbn [x2 y2] in Hx, Hz.
  assert (Hin : Circuit.distanceToCenter t < Circuit.TRACK_RADIUS)
    by (rewrite Hd; unfold Circuit.TRACK_RADIUS; lra).
  assert (Ex : x (position w') = 0).
  { rewrite Hw', circuit_boundaryCheck_inner by exact Hin.
    cbn [cameraFollow position]. rewrite Hx. ring. }
  assert (Ez : z (position w') = 0).
  { rewrite Hw', circuit_boundaryCheck_inner by exact Hin.
    cbn [cameraFollow position]. rewrite Hz. ring. }
  assert (Ed : Circuit.distanceToCenter w' = 0).
  { unfold Circuit.distanceToCenter, Circuit.position2D.
    rewrite Ex, Ez. apply length2_zero_iff. reflexivity. }
  split; [assumption |]. split.
  { rewrite Hw', circuit_boundaryCheck_inner by exact Hin.
    cbn [cameraFollow velocity]. exact Hv. }
  split; [assumption |]. split; [assumption |]. split; [assumption |].
  rewrite Ed. unfold Circuit.TRACK_RADIUS. lra.
Qed.

Lemma circuit_centre_is_degenerate_witness :
  let w := restAt (mkVector3 0 0.5 0) 0 in
  Circuit.distanceToCenter (Circuit.translated 0.016 noKeys w) = 0
  /\ x (position (Circuit.updatePhysics 0.016 noKeys w)) = 0
  /\ z (position (Circuit.updatePhysics 0.016 noKeys w)) = 0.
Proof.
  cbv zeta.
  assert (H : Circuit.distanceToCenter
                (Circuit.translated 0.016 noKeys
                   (restAt (mkVector3 0 0.5 0) 0)) = 0).
  { unfold Circuit.distanceToCenter, Circuit.position2D.
    destruct (circuit_translated_rest 0.016 (mkVector3 0 0.5 0) 0) as [_ Hp].
    rewrite Hp. cbn [x z]. apply length2_zero_iff. reflexivity. }
  split; [exact H |].
  destruct (circuit_centre_is_degenerate 0.016 noKeys
              (restAt (mkVector3 0 0.5 0) 0) H) as (_ & _ & Hx & Hz & _).
  split; assumption.
Defined.

(** ** The speed clamp *)

Lemma length_on_x_axis (a : R) : length (mkVector3 a 0 0) = Rabs a.
Proof.
  unfold length; cbn [x y z].
  replace (a * a + 0 * 0 + 0 * 0) with (a²) by (unfold Rsqr; ring).
  apply sqrt_Rsqr_abs.
Qed.

(** What the clamp does to a velocity above the limit. *)
Lemma clampSpeed_above (maxSpeed : R) (v : Vector3) :
  0 < maxSpeed -> length v > maxSpeed ->
  clampSpeed maxSpeed v = multiplyScalar v (maxSpeed / length v)
  /\ 0 < maxSpeed / length v
  /\ length (clampSpeed maxSpeed v) = maxSpeed.
Proof.
  intros HM Hv.
  assert (Hn : length v <> 0) by lra.
  rewrite clampSpeed_rescaled by assumption.
  split; [apply setLength_scale; assumption |].
  split; [apply Rdiv_lt_0_compat; lra |].
  apply length_setLength; [assumption | lra].
Qed.

Lemma length_decayed (v : Vector3) (m : R) :
  0 <= m -> length v <= m -> length (multiplyScalar v 0.01) <= m.
Proof.
  intros Hm Hv. rewrite length_multiplyScalar, Rabs_right by lra.
  pose proof (length_nonneg v). lra.
Qed.

Lemma openField_step_velocity (deltaTime : R) (keys : Keys) (w : World) :
  let t := OpenField.translated deltaTime keys w in
  let w' := OpenField.updatePhysics deltaTime keys w in
  (OpenField.outOfBounds t = false -> velocity w' = velocity t)
  /\ (OpenField.outOfBounds t = true
      -> velocity w' = multiplyScalar (velocity t) 0.01).
Proof.
  cbv zeta. rewrite openField_updatePhysics_eq.
  assert (E : OpenField.outOfBounds
                (cameraFollow (OpenField.translated deltaTime keys w))
              = OpenField.outOfBounds (OpenField.translated deltaTime keys w))
    by reflexivity.
  split; intros H.
  - rewrite openField_boundaryCheck_miss by (rewrite E; exact H). reflexivity.
  - rewrite openField_boundaryCheck_hit by (rewrite E; exact H). reflexivity.
Qed.

Lemma circuit_step_velocity (deltaTime : R) (keys : Keys) (w : World) :
  let t := Circuit.translated deltaTime keys w in
  let w' := Circuit.updatePhysics deltaTime keys w in
  (Circuit.offTrack t = false -> velocity w' = velocity t)
  /\ (Circuit.offTrack t = true
      -> velocity w' = multiplyScalar (velocity t) 0.01).
Proof.
  cbv zeta. rewrite circuit_updatePhysics_eq. cbn [cameraFollow velocity].
  split; intros H.
  - rewrite circuit_boundaryCheck_miss by exact H. reflexivity.
  - destruct (circuit_offTrack_cases (Circuit.translated deltaTime keys w))
      as [H' | [H' | H']].
    + rewrite H in H'. discriminate H'.
    + rewrite circuit_boundaryCheck_inner by exact H'.
      apply circuit_snapTo_world.
    + rewrite circuit_boundaryCheck_outer by exact H'.
      apply circuit_snapTo_world.
Qed.



(** ** Thrust along the heading *)

Section StraightLine.

Variables MASS ACCELERATION MAX_SPEED DRAG ANGULAR_DRAG TURN_RATE : R.

Hypothesis MASS_pos : 0 < MASS.
Hypothesis ACCELERATION_pos : 0 < ACCELERATION.
Hypothesis MAX_SPEED_pos : 0 < MAX_SPEED.
Hypothesis DRAG_range : 0 < DRAG < 1.

Variable deltaTime : R.
Hypothesis deltaTime_pos : 0 < deltaTime.

Local Abbreviation translated' :=
  (translated MASS ACCELERATION MAX_SPEED DRAG ANGULAR_DRAG TURN_RATE).
Local Abbreviation speedStep' :=
  (speedStep MASS ACCELERATION MAX_SPEED DRAG deltaTime).
Local Abbreviation speedAfter' :=
  (speedAfter MASS ACCELERATION MAX_SPEED DRAG deltaTime).
Local Abbreviation speedSum' :=
  (speedSum MASS ACCELERATION MAX_SPEED DRAG deltaTime).
Local Abbreviation unclamped' :=
  (unclampedSpeedAfter MASS ACCELERATION DRAG deltaTime).
Local Abbreviation gain := (ACCELERATION / MASS * deltaTime).
Local Abbreviation equilibrium :=
  (equilibriumSpeed MASS ACCELERATION DRAG deltaTime).

Lemma gain_pos : 0 < gain.
Proof.
  apply Rmult_lt_0_compat; [| assumption].
  apply Rdiv_lt_0_compat; assumption.
Qed.

(** The equilibrium speed is where thrust and drag balance. *)
Lemma equilibrium_balance :
  gain = equilibrium * (1 / DRAG - 1)
  /\ equilibrium * (1 - DRAG) = gain * DRAG
  /\ 0 < equilibrium.
Proof.
  pose proof gain_pos as Hg. destruct DRAG_range as [H0 H1].
  assert (Hd : 0 < 1 / DRAG - 1).
  { assert (1 < 1 / DRAG); [| lra].
    apply (Rmult_lt_reg_r DRAG); [assumption |].
    replace (1 / DRAG * DRAG) with 1 by (field; lra). lra. }
  unfold equilibriumSpeed.
  split; [field; split; lra |].
  split.
  - field; split; lra.
  - apply Rdiv_lt_0_compat; assumption.
Qed.

Lemma speedStep_eq (s : R) :
  speedStep' s = (s + gain) * DRAG
  /\ (s + gain) * DRAG <= MAX_SPEED
  \/ speedStep' s = MAX_SPEED /\ (s + gain) * DRAG > MAX_SPEED.
Proof.
  unfold speedStep.
  destruct (Rgt_dec ((s + gain) * DRAG) MAX_SPEED) as [H | H].
  - right. rewrite (proj2 (Rgtb_true _ _) H). split; [reflexivity | assumption].
  - left. assert (H' : (s + gain) * DRAG <= MAX_SPEED) by lra.
    rewrite (proj2 (Rgtb_false _ _) H'). split; [reflexivity | assumption].
Qed.

(** One frame of the scalar recurrence, below and above the equilibrium. *)
Lemma speedStep_below (s : R) :
  0 <= s -> s <= MAX_SPEED -> s < equilibrium ->
  0 <= speedStep' s <= MAX_SPEED
  /\ speedStep' s < equilibrium
  /\ (s < MAX_SPEED -> s < speedStep' s)
  /\ (s = MAX_SPEED -> speedStep' s = MAX_SPEED).
Proof.
  intros Hs Hm He.
  pose proof gain_pos as Hg. destruct DRAG_range as [H0 H1].
  destruct equilibrium_balance as (_ & Hb & Hpos).
  assert (Hup : s < (s + gain) * DRAG) by nra.
  assert (Hlt : (s + gain) * DRAG < equilibrium) by nra.
  destruct (speedStep_eq s) as [[E Hu] | [E Hu]]; rewrite E.
  - repeat split; try lra.
  - repeat split; try lra.
Qed.

Lemma speedStep_above (s : R) :
  equilibrium <= s -> speedStep' s <= s.
Proof.
  intros He.
  pose proof gain_pos as Hg. destruct DRAG_range as [H0 H1].
  destruct equilibrium_balance as (_ & Hb & Hpos).
  assert (Hdn : (s + gain) * DRAG <= s) by nra.
  destruct (speedStep_eq s) as [[E Hu] | [E Hu]]; rewrite E; lra.
Qed.

Lemma speedStep_upper (s : R) :
  0 <= s -> speedStep' s <= s + gain /\ speedStep' s <= (s + gain) * DRAG.
Proof.
  intros Hs. pose proof gain_pos as Hg. destruct DRAG_range as [H0 H1].
  destruct (speedStep_eq s) as [[E Hu] | [E Hu]]; rewrite E; split; nra.
Qed.

Lemma speedAfter_below (n : nat) :
  0 <= speedAfter' n <= MAX_SPEED /\ speedAfter' n < equilibrium.
Proof.
  induction n as [| n [IH1 IH2]].
  - cbn [speedAfter]. destruct equilibrium_balance as (_ & _ & Hpos). lra.
  - cbn [speedAfter].
    destruct (speedStep_below (speedAfter' n)) as (Hb & He & _); try lra.
Qed.

(** Before the clamp is reached each frame is strictly faster than the one
    before; at the clamp the speed stays. *)
Lemma speedAfter_increase (n : nat) :
  (speedAfter' n < MAX_SPEED -> speedAfter' n < speedAfter' (S n))
  /\ (speedAfter' n = MAX_SPEED -> speedAfter' (S n) = MAX_SPEED).
Proof.
  destruct (speedAfter_below n) as [Hb He].
  cbn [speedAfter].
  destruct (speedStep_below (speedAfter' n) ltac:(lra) ltac:(lra) ltac:(lra))
    as (_ & _ & Hi & Hp).
  split; assumption.
Qed.

Lemma speedAfter_linear (n : nat) : speedAfter' n <= INR n * gain.
Proof.
  induction n as [| n IH].
  - cbn [speedAfter INR]. lra.
  - rewrite S_INR. cbn [speedAfter].
    destruct (speedAfter_below n) as [Hb _].
    destruct (speedStep_upper (speedAfter' n)) as [Hu _]; lra.
Qed.

Lemma speedSum_nonneg (n : nat) : 0 <= speedSum' n.
Proof.
  induction n as [| n IH]; [cbn [speedSum]; lra |].
  cbn [speedSum speedAfter].
  destruct (speedAfter_below (S n)) as [Hb _]. cbn [speedAfter] in Hb. lra.
Qed.

Lemma speedSum_monotone (m n : nat) :
  (m <= n)%nat -> speedSum' m <= speedSum' n.
Proof.
  induction 1 as [| n Hle IH]; [lra |].
  cbn [speedSum speedAfter].
  destruct (speedAfter_below (S n)) as [Hb _]. cbn [speedAfter] in Hb. lra.
Qed.

Lemma speedSum_by_clamp (m n : nat) :
  speedSum' (m + n) <= speedSum' m + INR n * MAX_SPEED.
Proof.
  induction n as [| n IH].
  - rewrite Nat.add_0_r. cbn [INR]. lra.
  - rewrite Nat.add_succ_r, S_INR. cbn [speedSum speedAfter].
    destruct (speedAfter_below (S (m + n))) as [Hb _].
    cbn [speedAfter] in Hb. lra.
Qed.

Lemma speedSum_quadratic (n : nat) :
  speedSum' n <= INR n * (INR n + 1) / 2 * gain.
Proof.
  induction n as [| n IH].
  - cbn [speedSum INR]. lra.
  - pose proof (speedAfter_linear (S n)) as Hl.
    rewrite S_INR in *. cbn [speedSum]. cbn [speedAfter] in *. lra.
Qed.

(** Where the clamp is below the equilibrium the clamped speeds dominate the
    smaller of the clamp and the unclamped speeds. *)
Lemma speedAfter_lower (n : nat) :
  MAX_SPEED <= equilibrium ->
  Rmin MAX_SPEED (unclamped' n) <= speedAfter' n.
Proof.
  intros HM. pose proof gain_pos as Hg. destruct DRAG_range as [H0 H1].
  destruct equilibrium_balance as (_ & Hb & _).
  induction n as [| n IH].
  - cbn [speedAfter unclampedSpeedAfter]. apply Rmin_r.
  - cbn [speedAfter unclampedSpeedAfter].
    destruct (speedAfter_below n) as [Hn He].
    destruct (speedStep_eq (speedAfter' n)) as [[E Hu] | [E Hu]]; rewrite E.
    + unfold Rmin in *.
      destruct (Rle_dec MAX_SPEED (unclamped' n));
        destruct (Rle_dec MAX_SPEED ((unclamped' n + gain) * DRAG)); nra.
    + apply Rmin_l.
Qed.


Lemma length_headingVector (h : R) : length (headingVector h) = 1.
Proof.
  unfold length, headingVector; cbn [x y z].
  pose proof (sin2_cos2 h) as H. unfold Rsqr in H.
  replace (- sin h * - sin h + 0 * 0 + - cos h * - cos h)
    with (sin h * sin h + cos h * cos h) by ring.
  rewrite H. apply sqrt_1.
Qed.

Lemma length_alongHeading (h s : R) :
  0 <= s -> length (multiplyScalar (headingVector h) s) = s.
Proof.
  intros Hs. rewrite length_multiplyScalar, length_headingVector.
  rewrite Rabs_right; lra.
Qed.

(** The clamp on a velocity along a heading works on its speed. *)
Lemma clampSpeed_alongHeading (h u : R) :
  0 < u ->
  clampSpeed MAX_SPEED (multiplyScalar (headingVector h) u)
  = multiplyScalar (headingVector h) (if Rgtb u MAX_SPEED then MAX_SPEED else u).
Proof.
  intros Hu.
  destruct (Rgt_dec u MAX_SPEED) as [H | H].
  - rewrite (proj2 (Rgtb_true _ _) H).
    rewrite clampSpeed_rescaled by (rewrite length_alongHeading; lra).
    rewrite setLength_scale by (rewrite length_alongHeading; lra).
    rewrite length_alongHeading by lra.
    apply Vector3_eq; cbn [multiplyScalar x y z]; field; lra.
  - assert (H' : u <= MAX_SPEED) by lra.
    rewrite (proj2 (Rgtb_false _ _) H').
    apply clampSpeed_unchanged. rewrite length_alongHeading; lra.
Qed.

(** One frame of a body that moves along its heading and does not turn:
    it still moves along the same heading, at the next speed of the scalar
    recurrence. *)
Lemma alongHeading_translated (h s : R) (w : World) :
  0 <= s -> alongHeading h s w ->
  alongHeading h (speedStep' s) (translated' deltaTime forwardOnly w)
  /\ position (translated' deltaTime forwardOnly w)
     = add (position w)
           (multiplyScalar (headingVector h) (speedStep' s * deltaTime)).
Proof.
  intros Hs (Ha & Hh & Hv).
  pose proof gain_pos as Hg. destruct DRAG_range as [H0 H1].
  set (t := translated' deltaTime forwardOnly w).
  assert (Ea : angularVelocity t = 0).
  { unfold t. rewrite translated_angularVelocity.
    cbn [steerInput forwardOnly left right]. rewrite Ha. ring. }
  assert (Eh : rotation_y t = h).
  { unfold t. rewrite translated_rotation_y.
    cbn [steerInput forwardOnly left right]. rewrite Ha, Hh. ring. }
  set (r := rotation ANGULAR_DRAG TURN_RATE deltaTime forwardOnly w).
  assert (Ef : forwardVector r = headingVector h).
  { rewrite forwardVector_eq. unfold headingVector.
    replace (rotation_y r) with h by (symmetry; exact Eh).
    reflexivity. }
  assert (Eu : draggedVelocity MASS ACCELERATION DRAG deltaTime forwardOnly r
               = multiplyScalar (headingVector h) ((s + gain) * DRAG)).
  { unfold draggedVelocity, force. cbn [forwardOnly forward backward].
    rewrite Ef. replace (velocity r) with (velocity w) by reflexivity.
    rewrite Hv.
    apply Vector3_eq; cbn [add multiplyScalar divideScalar x y z];
      field; lra. }
  assert (Hu : 0 < (s + gain) * DRAG) by nra.
  assert (Ev : velocity t = multiplyScalar (headingVector h) (speedStep' s)).
  { unfold t. rewrite translated_velocity. fold r. rewrite Eu.
    apply clampSpeed_alongHeading. exact Hu. }
  split; [repeat split; assumption |].
  unfold t in *. rewrite translated_position, Ev.
  apply Vector3_eq; cbn [add multiplyScalar x y z]; ring.
Qed.

(** The variant: its step function for this frame time, the test of its
    boundary check, and what the step does when the test fails. *)
Variable step : Keys -> World -> World.
Variable hit : World -> bool.

Hypothesis step_untouched :
  forall (keys : Keys) (w : World),
    hit (translated' deltaTime keys w) = false ->
    velocity (step keys w) = velocity (translated' deltaTime keys w)
    /\ angularVelocity (step keys w)
       = angularVelocity (translated' deltaTime keys w)
    /\ rotation_y (step keys w) = rotation_y (translated' deltaTime keys w)
    /\ position (step keys w) = position (translated' deltaTime keys w).

Hypothesis step_not_faster :
  forall (keys : Keys) (w : World),
    speed (step keys w) <= speed (translated' deltaTime keys w).

Local Abbreviation untouched w :=
  (hit (translated' deltaTime forwardOnly w) = false).
Local Abbreviation trajectory n w := (frames (step forwardOnly) n w).

(** From rest, as long as no boundary is hit, the body moves along its
    initial heading with the speeds of the scalar recurrence. *)
Lemma trajectory_alongHeading (w0 : World) (n : nat) :
  velocity w0 = mkVector3 0 0 0 -> angularVelocity w0 = 0 ->
  (forall m : nat, (m < n)%nat -> untouched (trajectory m w0)) ->
  alongHeading (rotation_y w0) (speedAfter' n) (trajectory n w0)
  /\ position (trajectory n w0)
     = add (position w0)
           (multiplyScalar (headingVector (rotation_y w0))
                           (speedSum' n * deltaTime)).
Proof.
  intros Hv Ha. induction n as [| n IH]; intros Hun.
  - cbn [frames speedAfter speedSum]. split.
    + repeat split; [assumption |].
      rewrite Hv. apply Vector3_eq; cbn [multiplyScalar x y z]; ring.
    + apply Vector3_eq; cbn [add multiplyScalar x y z]; ring.
  - destruct IH as [Hal Hp]; [intros m Hm; apply Hun; lia |].
    destruct (speedAfter_below n) as [[Hs _] _].
    destruct (alongHeading_translated _ _ _ Hs Hal) as [(Ea & Eh & Ev) Ep].
    destruct (step_untouched forwardOnly (trajectory n w0))
      as (Sv & Sa & Sh & Sp); [apply Hun; lia |].
    cbn [frames speedAfter speedSum]. split.
    + repeat split; congruence.
    + rewrite Sp, Ep, Hp.
      apply Vector3_eq; cbn [add multiplyScalar x y z]; ring.
Qed.

Lemma trajectory_speed (w0 : World) (n : nat) :
  velocity w0 = mkVector3 0 0 0 -> angularVelocity w0 = 0 ->
  (forall m : nat, (m < n)%nat -> untouched (trajectory m w0)) ->
  speed (trajectory n w0) = speedAfter' n.
Proof.
  intros Hv Ha Hun.
  destruct (trajectory_alongHeading w0 n Hv Ha Hun) as [(_ & _ & E) _].
  unfold speed. rewrite E. apply length_alongHeading.
  apply speedAfter_below.
Qed.

(** Where the position is after the translation of frame [n + 1]. *)
Lemma trajectory_translated (w0 : World) (n : nat) :
  velocity w0 = mkVector3 0 0 0 -> angularVelocity w0 = 0 ->
  (forall m : nat, (m < n)%nat -> untouched (trajectory m w0)) ->
  position (translated' deltaTime forwardOnly (trajectory n w0))
  = add (position w0)
        (multiplyScalar (headingVector (rotation_y w0))
                        (speedSum' (S n) * deltaTime)).
Proof.
  intros Hv Ha Hun.
  destruct (trajectory_alongHeading w0 n Hv Ha Hun) as [Hal Hp].
  destruct (speedAfter_below n) as [[Hs _] _].
  destruct (alongHeading_translated _ _ _ Hs Hal) as [_ Ep].
  rewrite Ep, Hp. cbn [speedSum speedAfter].
  apply Vector3_eq; cbn [add multiplyScalar x y z]; ring.
Qed.

(** A region the line stays in keeps the boundary check quiet. *)
Lemma trajectory_untouched (inside : Vector3 -> Prop) (w0 : World) (n : nat) :
  (forall w : World, inside (position w) -> hit w = false) ->
  velocity w0 = mkVector3 0 0 0 -> angularVelocity w0 = 0 ->
  (forall m : nat, (m <= n)%nat ->
     inside (add (position w0)
                 (multiplyScalar (headingVector (rotation_y w0))
                                 (speedSum' (S m) * deltaTime)))) ->
  forall m : nat, (m <= n)%nat -> untouched (trajectory m w0).
Proof.
  intros Hin Hv Ha Hline.
  assert (H : forall k m : nat, (m < k)%nat -> (m <= n)%nat ->
                                untouched (trajectory m w0)).
  { induction k as [| k IH]; intros m Hm Hn; [lia |].
    apply Hin. rewrite trajectory_translated; try assumption.
    - apply Hline; assumption.
    - intros m' Hm'. apply IH; lia. }
  intros m Hm. apply (H (S m)); [lia | assumption].
Qed.

(** The frame-by-frame statement: from rest, with the throttle held and no
    boundary hit up to and including frame [n + 1], the speed stays below
    the equilibrium, at most the clamp, and grows as long as it is below
    the clamp. *)
Lemma trajectory_speeds_up (w0 : World) (n : nat) :
  velocity w0 = mkVector3 0 0 0 -> angularVelocity w0 = 0 ->
  (forall m : nat, (m <= n)%nat -> untouched (trajectory m w0)) ->
  let before := speed (trajectory n w0) in
  let after := speed (trajectory (S n) w0) in
  gain = equilibrium * (1 / DRAG - 1)
  /\ before < equilibrium /\ after < equilibrium
  /\ before <= MAX_SPEED /\ after <= MAX_SPEED
  /\ (before < MAX_SPEED -> before < after)
  /\ (equilibrium <= MAX_SPEED -> before < after)
  /\ (before = MAX_SPEED -> after = MAX_SPEED).
Proof.
  intros Hv Ha Hun before after.
  assert (Eb : before = speedAfter' n).
  { apply trajectory_speed; try assumption. intros m Hm; apply Hun; lia. }
  assert (Ea : after = speedAfter' (S n)).
  { apply trajectory_speed; try assumption. intros m Hm; apply Hun; lia. }
  rewrite Eb, Ea.
  destruct (speedAfter_below n) as [Hn Hne].
  destruct (speedAfter_below (S n)) as [HSn HSne].
  destruct (speedAfter_increase n) as [Hi Hp].
  destruct equilibrium_balance as (Hbal & _).
  repeat split; try lra; assumption.
Qed.

(** At or above the equilibrium a frame does not make the body faster. *)
Lemma alongHeading_slows_down (h s : R) (w : World) :
  alongHeading h s w -> equilibrium <= s ->
  speed (step forwardOnly w) <= s.
Proof.
  intros Hal He.
  destruct equilibrium_balance as (_ & _ & Hpos).
  assert (Hs : 0 <= s) by lra.
  destruct (alongHeading_translated _ _ _ Hs Hal) as [(_ & _ & Ev) _].
  pose proof (step_not_faster forwardOnly w) as Hstep.
  pose proof (speedStep_above s He) as Hdown.
  assert (Hnn : 0 <= speedStep' s).
  { destruct (speedStep_eq s) as [[E Hu] | [E Hu]]; rewrite E.
    - pose proof gain_pos. destruct DRAG_range. nra.
    - lra. }
  unfold speed in Hstep at 2. rewrite Ev, length_alongHeading in Hstep by lra.
  lra.
Qed.

End StraightLine.

(** ** The two variants on the straight line *)

Lemma openField_constants :
  0 < OpenField.MASS /\ 0 < OpenField.ACCELERATION
  /\ 0 < OpenField.MAX_SPEED /\ 0 < OpenField.DRAG < 1.
Proof.
  unfold OpenField.MASS, OpenField.ACCELERATION, OpenField.MAX_SPEED,
    OpenField.DRAG. lra.
Qed.

Lemma circuit_constants :
  0 < Circuit.MASS /\ 0 < Circuit.ACCELERATION
  /\ 0 < Circuit.MAX_SPEED /\ 0 < Circuit.DRAG < 1.
Proof.
  unfold Circuit.MASS, Circuit.ACCELERATION, Circuit.MAX_SPEED, Circuit.DRAG.
  lra.
Qed.

Lemma openField_step_untouched (deltaTime : R) (keys : Keys) (w : World) :
  OpenField.outOfBounds (OpenField.translated deltaTime keys w) = false ->
  velocity (OpenField.updatePhysics deltaTime keys w)
  = velocity (OpenField.translated deltaTime keys w)
  /\ angularVelocity (OpenField.updatePhysics deltaTime keys w)
     = angularVelocity (OpenField.translated deltaTime keys w)
  /\ rotation_y (OpenField.updatePhysics deltaTime keys w)
     = rotation_y (OpenField.translated deltaTime keys w)
  /\ position (OpenField.updatePhysics deltaTime keys w)
     = position (OpenField.translated deltaTime keys w).
Proof.
  intros H. rewrite openField_updatePhysics_eq.
  rewrite openField_boundaryCheck_miss by exact H.
  repeat split; reflexivity.
Qed.

Lemma circuit_step_untouched (deltaTime : R) (keys : Keys) (w : World) :
  Circuit.offTrack (Circuit.translated deltaTime keys w) = false ->
  velocity (Circuit.updatePhysics deltaTime keys w)
  = velocity (Circuit.translated deltaTime keys w)
  /\ angularVelocity (Circuit.updatePhysics deltaTime keys w)
     = angularVelocity (Circuit.translated deltaTime keys w)
  /\ rotation_y (Circuit.updatePhysics deltaTime keys w)
     = rotation_y (Circuit.translated deltaTime keys w)
  /\ position (Circuit.updatePhysics deltaTime keys w)
     = position (Circuit.translated deltaTime keys w).
Proof.
  intros H. rewrite circuit_updatePhysics_eq.
  rewrite circuit_boundaryCheck_miss by exact H.
  repeat split; reflexivity.
Qed.

Lemma speed_decayed (v : Vector3) :
  length (multiplyScalar v 0.01) <= length v.
Proof. apply length_decayed; [apply length_nonneg | lra]. Qed.

Lemma openField_step_not_faster (deltaTime : R) (keys : Keys) (w : World) :
  speed (OpenField.updatePhysics deltaTime keys w)
  <= speed (OpenField.translated deltaTime keys w).
Proof.
  unfold speed.
  destruct (openField_step_velocity deltaTime keys w) as [Hmiss Hhit].
  cbv zeta in Hmiss, Hhit.
  destruct (OpenField.outOfBounds (OpenField.translated deltaTime keys w)).
  - rewrite (Hhit eq_refl). apply speed_decayed.
  - rewrite (Hmiss eq_refl). lra.
Qed.

Lemma circuit_step_not_faster (deltaTime : R) (keys : Keys) (w : World) :
  speed (Circuit.updatePhysics deltaTime keys w)
  <= speed (Circuit.translated deltaTime keys w).
Proof.
  unfold speed.
  destruct (circuit_step_velocity deltaTime keys w) as [Hmiss Hhit].
  cbv zeta in Hmiss, Hhit.
  destruct (Circuit.offTrack (Circuit.translated deltaTime keys w)).
  - rewrite (Hhit eq_refl). apply speed_decayed.
  - rewrite (Hmiss eq_refl). lra.
Qed.


Lemma openField_inside (w : World) :
  Rabs (x (position w)) <= OpenField.boundary
  /\ Rabs (z (position w)) <= OpenField.boundary ->
  OpenField.outOfBounds w = false.
Proof.
  intros [Hx Hz]. unfold OpenField.outOfBounds.
  apply orb_false_iff. split; apply Rgtb_false; assumption.
Qed.

(** A long run on the open field, at two frames a second from the edge
    [z = 48] towards the opposite edge: the sums of the speeds stay small
    enough for the body to remain inside, and the clamp is reached after 18
    frames. *)
Lemma openField_long_run_facts :
  let speedAfter' := speedAfter OpenField.MASS OpenField.ACCELERATION
                                OpenField.MAX_SPEED OpenField.DRAG 0.5 in
  let speedSum' := speedSum OpenField.MASS OpenField.ACCELERATION
                            OpenField.MAX_SPEED OpenField.DRAG 0.5 in
  OpenField.MAX_SPEED
  < equilibriumSpeed OpenField.MASS OpenField.ACCELERATION OpenField.DRAG 0.5
  /\ speedAfter' 18%nat = OpenField.MAX_SPEED
  /\ speedAfter' 19%nat = OpenField.MAX_SPEED
  /\ forall m : nat, (m <= 19)%nat -> 0 <= speedSum' m <= 180.
Proof.
  intros speedAfter' speedSum'.
  destruct openField_constants as (Om & Oa & Ox & Od).
  assert (Hdt : 0 < 0.5) by lra.
  destruct (equilibrium_balance _ _ _ Om Oa Od 0.5 Hdt) as (_ & Hb & _).
  assert (He : OpenField.MAX_SPEED
               < equilibriumSpeed OpenField.MASS OpenField.ACCELERATION
                                  OpenField.DRAG 0.5).
  { unfold OpenField.MASS, OpenField.ACCELERATION, OpenField.DRAG,
      OpenField.MAX_SPEED in *. lra. }
  assert (H18 : speedAfter' 18%nat = OpenField.MAX_SPEED).
  { pose proof (speedAfter_lower _ _ _ _ Om Oa Ox Od 0.5 Hdt 18
                  ltac:(lra)) as Hlow.
    destruct (speedAfter_below _ _ _ _ Om Oa Ox Od 0.5 Hdt 18) as [Hup _].
    fold speedAfter' in Hlow, Hup.
    assert (Hun : OpenField.MAX_SPEED
                  <= unclampedSpeedAfter OpenField.MASS
                       OpenField.ACCELERATION OpenField.DRAG 0.5 18).
    { cbn [unclampedSpeedAfter].
      unfold OpenField.MASS, OpenField.ACCELERATION, OpenField.DRAG,
        OpenField.MAX_SPEED. lra. }
    rewrite Rmin_left in Hlow by exact Hun. lra. }
  assert (H19 : speedAfter' 19%nat = OpenField.MAX_SPEED).
  { apply (speedAfter_increase _ _ _ _ Om Oa Ox Od 0.5 Hdt 18). exact H18. }
  split; [exact He |]. split; [exact H18 |]. split; [exact H19 |].
  intros m Hm. split.
  - apply (speedSum_nonneg _ _ _ _ Om Oa Ox Od 0.5 Hdt).
  - pose proof (speedSum_monotone _ _ _ _ Om Oa Ox Od 0.5 Hdt m 19 Hm) as H1.
    pose proof (speedSum_by_clamp _ _ _ _ Om Oa Ox Od 0.5 Hdt 15 4) as H2.
    pose proof (speedSum_quadratic _ _ _ _ Om Oa Ox Od 0.5 Hdt 15) as H3.
    change (15 + 4)%nat with 19%nat in H2.
    fold speedSum' in H1, H2, H3.
    cbn [INR] in H2, H3.
    unfold OpenField.MASS, OpenField.ACCELERATION, OpenField.MAX_SPEED
      in H2, H3.
    lra.
Qed.


Lemma circuit_inside (w : World) :
  Circuit.TRACK_RADIUS
  <= length2 (mkVector2 (x (position w)) (z (position w)))
  <= Circuit.TRACK_RADIUS + Circuit.TRACK_WIDTH ->
  Circuit.offTrack w = false.
Proof.
  intros [Hlo Hhi]. unfold Circuit.offTrack.
  apply orb_false_iff. split; [apply Rltb_false | apply Rgtb_false];
    assumption.
Qed.


(** * More of the script *)

(** ** The input latch *)

Lemma setControl_same (c : Control) (a b : bool) (keys : Keys) :
  setControl c b (setControl c a keys) = setControl c b keys.
Proof. destruct c; reflexivity. Qed.

Lemma setControl_commute (c1 c2 : Control) (a b : bool) (keys : Keys) :
  c1 <> c2 ->
  setControl c2 b (setControl c1 a keys) = setControl c1 a (setControl c2 b keys).
Proof. intros H. destruct c1, c2; try reflexivity; contradiction. Qed.

Lemma setControl_current (c : Control) (keys : Keys) :
  setControl c (getControl c keys) keys = keys.
Proof. destruct c, keys; reflexivity. Qed.

Lemma getControl_setControl (c : Control) (b : bool) (keys : Keys) :
  getControl c (setControl c b keys) = b.
Proof. destruct c; reflexivity. Qed.

Lemma keyControl_none (key : string) :
  ~ In key ["w"; "W"; "ArrowUp"; "s"; "S"; "ArrowDown";
            "a"; "A"; "ArrowLeft"; "d"; "D"; "ArrowRight"]%string ->
  keyControl key = None.
Proof.
  intros H. unfold keyControl.
  repeat match goal with
         | |- context [String.eqb key ?s] =>
             let E := fresh "E" in
             destruct (String.eqb_spec key s) as [E | E];
             [exfalso; apply H; subst key; simpl; tauto |]
         end.
  reflexivity.
Qed.

(** X1. The three key names of a control share one latch, and the last
    event wins: after a press of one name and a release of another name of
    the same control the control is released, exactly as if the press had
    not happened; likewise a press after a release. *)
Theorem latch_last_event_wins :
  forall (k1 k2 : string) (c : Control) (keys : Keys),
    keyControl k1 = Some c -> keyControl k2 = Some c ->
    onKeyUp k2 (onKeyDown k1 keys) = onKeyUp k2 keys
    /\ getControl c (onKeyUp k2 (onKeyDown k1 keys)) = false
    /\ onKeyDown k2 (onKeyUp k1 keys) = onKeyDown k2 keys
    /\ getControl c (onKeyDown k2 (onKeyUp k1 keys)) = true
    /\ onKeyDown k2 (onKeyDown k1 keys) = onKeyDown k1 keys.
Proof.
  intros k1 k2 c keys H1 H2. unfold onKeyUp, onKeyDown. rewrite H1, H2.
  rewrite !setControl_same, !getControl_setControl. repeat split.
Qed.

Lemma latch_last_event_wins_witness :
  forward (onKeyUp "ArrowUp" (onKeyDown "w" noKeys)) = false
  /\ forward (onKeyDown "W" (onKeyUp "ArrowUp" noKeys)) = true.
Proof.
  set (keys := noKeys).
  destruct (latch_last_event_wins "w" "ArrowUp" Forward keys eq_refl eq_refl)
    as (_ & Hup & _).
  destruct (latch_last_event_wins "ArrowUp" "W" Forward keys eq_refl eq_refl)
    as (_ & _ & _ & Hdown & _).
  split; assumption.
Defined.

(** X2. Key events for different controls do not disturb each other: a press
    or release of one key and a press or release of a key of another control
    (or of an unrecognised key) give the same latch in either order. *)
Theorem latch_controls_commute :
  forall (k1 k2 : string) (keys : Keys),
    keyControl k1 <> keyControl k2 ->
    onKeyDown k2 (onKeyDown k1 keys) = onKeyDown k1 (onKeyDown k2 keys)
    /\ onKeyUp k2 (onKeyDown k1 keys) = onKeyDown k1 (onKeyUp k2 keys)
    /\ onKeyDown k2 (onKeyUp k1 keys) = onKeyUp k1 (onKeyDown k2 keys)
    /\ onKeyUp k2 (onKeyUp k1 keys) = onKeyUp k1 (onKeyUp k2 keys).
Proof.
  intros k1 k2 keys H. unfold onKeyUp, onKeyDown.
  destruct (keyControl k1) as [c1 |], (keyControl k2) as [c2 |];
    try (repeat split; reflexivity).
  assert (Hc : c1 <> c2) by congruence.
  repeat split; apply setControl_commute; assumption.
Qed.

Lemma latch_controls_commute_witness :
  onKeyUp "a" (onKeyDown "w" (mkKeys false false true false))
  = onKeyDown "w" (onKeyUp "a" (mkKeys false false true false)).
Proof.
  set (keys := mkKeys false false true false).
  assert (H : keyControl "w" <> keyControl "a") by discriminate.
  destruct (latch_controls_commute "w" "a" keys H) as (_ & Hc & _).
  exact Hc.
Defined.

(** X3. A key whose name is not one of the twelve case labels is ignored by
    both handlers; the labels are matched exactly, so for instance the
    lower-case name "arrowup" is ignored. *)
Theorem unrecognised_keys_are_ignored :
  forall (key : string) (keys : Keys),
    ~ In key ["w"; "W"; "ArrowUp"; "s"; "S"; "ArrowDown";
              "a"; "A"; "ArrowLeft"; "d"; "D"; "ArrowRight"]%string ->
    onKeyDown key keys = keys /\ onKeyUp key keys = keys.
Proof.
  intros key keys H. unfold onKeyDown, onKeyUp.
  rewrite (keyControl_none key H). split; reflexivity.
Qed.

Lemma unrecognised_keys_are_ignored_witness :
  onKeyDown "arrowup" noKeys = noKeys
  /\ onKeyUp " " (mkKeys true false false false)
     = mkKeys true false false false.
Proof.
  split.
  - apply (unrecognised_keys_are_ignored "arrowup" noKeys).
    simpl. intros H.
    repeat (destruct H as [H | H]; [discriminate H |]). exact H.
  - apply (unrecognised_keys_are_ignored " " (mkKeys true false false false)).
    simpl. intros H.
    repeat (destruct H as [H | H]; [discriminate H |]). exact H.
Defined.

(** X4. Press and release of one key is a round trip on the latch when the
    key's control was up before the press (or the key is not recognised):
    the latch is exactly what it was. *)
Theorem press_release_round_trip :
  forall (key : string) (keys : Keys),
    (forall c : Control, keyControl key = Some c -> getControl c keys = false) ->
    onKeyUp key (onKeyDown key keys) = keys.
Proof.
  intros key keys H. unfold onKeyUp, onKeyDown.
  destruct (keyControl key) as [c |] eqn:E; [| reflexivity].
  rewrite setControl_same. rewrite <- (H c eq_refl).
  apply setControl_current.
Qed.

Lemma press_release_round_trip_witness :
  onKeyUp "d" (onKeyDown "d" (mkKeys true false true false))
  = mkKeys true false true false.
Proof.
  apply (press_release_round_trip "d" (mkKeys true false true false)).
  intros c H. injection H as <-. reflexivity.
Defined.

(** ** Steering over many frames *)

Lemma Rabs_bound (a b : R) : Rabs a <= b <-> - b <= a <= b.
Proof.
  unfold Rabs. destruct (Rcase_abs a); split; intros; lra.
Qed.

Lemma pow_unit_interval (q : R) (n : nat) : 0 <= q <= 1 -> 0 <= q ^ n <= 1.
Proof.
  intros Hq. induction n as [| n IH]; cbn [pow]; [lra | nra].
Qed.

Lemma steerInput_released (turnRate deltaTime av : R) (keys : Keys) :
  left keys = false -> right keys = false ->
  steerInput turnRate deltaTime keys av = av.
Proof. intros Hl Hr. unfold steerInput. now rewrite Hl, Hr. Qed.

Lemma steerInput_range (turnRate deltaTime av : R) (keys : Keys) :
  0 <= turnRate * deltaTime ->
  av - turnRate * deltaTime
  <= steerInput turnRate deltaTime keys av
  <= av + turnRate * deltaTime.
Proof.
  intros H. unfold steerInput. destruct (left keys), (right keys); lra.
Qed.

Section Turning.

Variables ANGULAR_DRAG TURN_RATE : R.
Variable step : R -> Keys -> World -> World.

Hypothesis step_heading :
  forall (deltaTime : R) (keys : Keys) (w : World),
    angularVelocity (step deltaTime keys w)
    = steerInput TURN_RATE deltaTime keys (angularVelocity w) * ANGULAR_DRAG
    /\ rotation_y (step deltaTime keys w)
       = rotation_y w
         + steerInput TURN_RATE deltaTime keys (angularVelocity w)
           * ANGULAR_DRAG.

(** With the steering released the turn decays geometrically, whatever
    else happens in the frames. *)
Lemma released_turn_decays (inputs : list (R * Keys)) (w : World) :
  Forall (fun i => left (snd i) = false /\ right (snd i) = false) inputs ->
  let n := List.length inputs in
  let w' := runFrames step inputs w in
  angularVelocity w' = angularVelocity w * ANGULAR_DRAG ^ n
  /\ (1 - ANGULAR_DRAG) * (rotation_y w' - rotation_y w)
     = ANGULAR_DRAG * angularVelocity w * (1 - ANGULAR_DRAG ^ n).
Proof.
  intros H. revert w. induction H as [| i inputs [Hl Hr] _ IH]; intros w.
  - cbn [List.length runFrames fold_left pow]. split; ring.
  - cbn [List.length runFrames fold_left pow].
    specialize (IH (step (fst i) (snd i) w)).
    cbv zeta in IH. unfold runFrames in IH. destruct IH as [IHa IHh].
    destruct (step_heading (fst i) (snd i) w) as [Sa Sh].
    rewrite steerInput_released in Sa, Sh by assumption.
    rewrite Sa in IHa, IHh. rewrite Sh in IHh.
    split; [rewrite IHa; ring | nra].
Qed.

(** The turn rate stays within the bound that steering at full lock
    reaches for the longest frame time. *)
Lemma turn_rate_bounded (limit : R) (inputs : list (R * Keys)) (w : World) :
  0 <= TURN_RATE -> 0 <= ANGULAR_DRAG < 1 ->
  Forall (fun i => 0 <= fst i <= limit) inputs ->
  let bound := ANGULAR_DRAG / (1 - ANGULAR_DRAG) * (TURN_RATE * limit) in
  Rabs (angularVelocity w) <= bound ->
  Rabs (angularVelocity (runFrames step inputs w)) <= bound.
Proof.
  intros HT HA H bound. revert w.
  induction H as [| i inputs [Hlo Hhi] _ IH]; intros w Hw; [exact Hw |].
  cbn [runFrames fold_left]. apply IH.
  destruct (step_heading (fst i) (snd i) w) as [Sa _]. rewrite Sa.
  assert (Hdt : 0 <= TURN_RATE * fst i) by nra.
  pose proof (steerInput_range TURN_RATE (fst i) (angularVelocity w) (snd i)
                Hdt) as Hs.
  apply Rabs_bound in Hw. apply Rabs_bound.
  assert (Hb : bound * (1 - ANGULAR_DRAG)
               = ANGULAR_DRAG * (TURN_RATE * limit))
    by (unfold bound; field; lra).
  assert (Hlim : TURN_RATE * fst i <= TURN_RATE * limit) by nra.
  split; nra.
Qed.

End Turning.



(** X8. Steering cannot spin the body without limit: if no frame is longer
    than [limit] seconds (and none negative), an angular velocity within
    19 * TURN_RATE * limit stays within it through any frames and any key
    states; in particular from rest.  Both variants. *)
Theorem turn_rate_is_bounded :
  forall (limit : R) (inputs : list (R * Keys)) (w : World),
    Forall (fun i => 0 <= fst i <= limit) inputs ->
    (Rabs (angularVelocity w) <= 19 * (OpenField.TURN_RATE * limit) ->
     Rabs (angularVelocity (runFrames OpenField.updatePhysics inputs w))
     <= 19 * (OpenField.TURN_RATE * limit))
    /\
    (Rabs (angularVelocity w) <= 19 * (Circuit.TURN_RATE * limit) ->
     Rabs (angularVelocity (runFrames Circuit.updatePhysics inputs w))
     <= 19 * (Circuit.TURN_RATE * limit)).
Proof.
  intros limit inputs w H. split; intros Hw.
  - pose proof (turn_rate_bounded OpenField.ANGULAR_DRAG OpenField.TURN_RATE
                  OpenField.updatePhysics openField_step_heading limit inputs w)
      as B.
    unfold OpenField.ANGULAR_DRAG, OpenField.TURN_RATE in *.
    cbv zeta in B.
    assert (E : 0.95 / (1 - 0.95) * (0.05 * limit) = 19 * (0.05 * limit))
      by lra.
    rewrite E in B. apply B; try lra; assumption.
  - pose proof (turn_rate_bounded Circuit.ANGULAR_DRAG Circuit.TURN_RATE
                  Circuit.updatePhysics circuit_step_heading limit inputs w)
      as B.
    unfold Circuit.ANGULAR_DRAG, Circuit.TURN_RATE in *.
    cbv zeta in B.
    assert (E : 0.95 / (1 - 0.95) * (0.05 * limit) = 19 * (0.05 * limit))
      by lra.
    rewrite E in B. apply B; try lra; assumption.
Qed.

Lemma turn_rate_is_bounded_witness :
  let w := restAt (mkVector3 0 0.5 0) 0 in
  let hardLeft := mkKeys true false true false in
  let inputs := [(0.016, hardLeft); (0.1, hardLeft); (0.05, hardLeft)] in
  Rabs (angularVelocity (runFrames OpenField.updatePhysics inputs w))
  <= 19 * (OpenField.TURN_RATE * 0.1)
  /\ Rabs (angularVelocity (runFrames Circuit.updatePhysics inputs w))
     <= 19 * (Circuit.TURN_RATE * 0.1).
Proof.
  intros w hardLeft inputs.
  assert (H : Forall (fun i : R * Keys => 0 <= fst i <= 0.1) inputs).
  { repeat constructor; cbn [fst]; lra. }
  assert (H0 : forall b : R, 0 <= b -> Rabs (angularVelocity w) <= b).
  { intros b Hb. cbn [w restAt angularVelocity]. rewrite Rabs_R0. exact Hb. }
  destruct (turn_rate_is_bounded 0.1 inputs w H) as [Ho Hc].
  split.
  - apply Ho. apply H0. unfold OpenField.TURN_RATE. lra.
  - apply Hc. apply H0. unfold Circuit.TURN_RATE. lra.
Defined.

(** ** Coasting, zero-length frames, and the camera as an output *)

Section Coasting.

Variables MASS ACCELERATION MAX_SPEED DRAG ANGULAR_DRAG TURN_RATE : R.

Hypothesis MAX_SPEED_pos : 0 < MAX_SPEED.
Hypothesis DRAG_range : 0 < DRAG < 1.

Local Abbreviation translated' :=
  (translated MASS ACCELERATION MAX_SPEED DRAG ANGULAR_DRAG TURN_RATE).

(** With the throttle released the new velocity is the old one times a
    factor between 0 and DRAG; the factor is DRAG itself when the clamp
    does not fire. *)
Lemma translated_coasting (deltaTime : R) (keys : Keys) (w : World) :
  forward keys = false -> backward keys = false ->
  exists c : R,
    0 < c <= DRAG
    /\ velocity (translated' deltaTime keys w) = multiplyScalar (velocity w) c
    /\ (speed w <= MAX_SPEED -> c = DRAG).
Proof.
  intros Hf Hb. destruct DRAG_range as [H0 H1].
  rewrite translated_velocity, draggedVelocity_released by assumption.
  cbn [rotation velocity].
  set (u := multiplyScalar (velocity w) DRAG).
  assert (Hu : length u = DRAG * speed w).
  { unfold u, speed. rewrite length_multiplyScalar, Rabs_right; lra. }
  pose proof (length_nonneg (velocity w)) as Hv. fold (speed w) in Hv.
  destruct (Rgt_dec (length u) MAX_SPEED) as [H | H].
  - destruct (clampSpeed_above MAX_SPEED u MAX_SPEED_pos H) as (E & Hq & _).
    set (q := MAX_SPEED / length u) in *.
    assert (Hq1 : q * length u = MAX_SPEED) by (unfold q; field; lra).
    assert (Hq2 : q < 1) by nra.
    exists (DRAG * q). split; [nra |]. split.
    + rewrite E. unfold u.
      apply Vector3_eq; cbn [multiplyScalar x y z]; ring.
    + intros Hs. nra.
  - exists DRAG. split; [lra |]. split; [| reflexivity].
    apply (clampSpeed_unchanged MAX_SPEED u). lra.
Qed.

Lemma steerInput_zero (keys : Keys) (av : R) :
  steerInput TURN_RATE 0 keys av = av.
Proof. unfold steerInput. destruct (left keys), (right keys); ring. Qed.

(** A frame of length zero does not read the latch. *)
Lemma translated_zero (keys keys' : Keys) (w : World) :
  translated' 0 keys w = translated' 0 keys' w.
Proof.
  assert (R : forall k : Keys,
             rotation ANGULAR_DRAG TURN_RATE 0 k w
             = mkWorld (velocity w) (angularVelocity w * ANGULAR_DRAG)
                       (position w)
                       (rotation_y w + angularVelocity w * ANGULAR_DRAG)
                       (camera_position w) (camera_target w)).
  { intros k. unfold rotation. now rewrite steerInput_zero. }
  assert (D : forall (k : Keys) (r : World),
             draggedVelocity MASS ACCELERATION DRAG 0 k r
             = multiplyScalar (velocity r) DRAG).
  { intros k r. unfold draggedVelocity.
    apply Vector3_eq; cbn [add multiplyScalar divideScalar x y z]; ring. }
  unfold translated, acceleration. now rewrite !R, !D.
Qed.

Lemma translated_zero_position (keys : Keys) (w : World) :
  position (translated' 0 keys w) = position w.
Proof.
  rewrite translated_position.
  apply Vector3_eq; cbn [add multiplyScalar x y z rotation acceleration
                         set_velocity position]; ring.
Qed.

End Coasting.

Lemma openField_drag_range : 0 < OpenField.DRAG < 1.
Proof. unfold OpenField.DRAG; lra. Qed.

Lemma circuit_drag_range : 0 < Circuit.DRAG < 1.
Proof. unfold Circuit.DRAG; lra. Qed.

Lemma openField_max_speed_pos : 0 < OpenField.MAX_SPEED.
Proof. unfold OpenField.MAX_SPEED; lra. Qed.

Lemma circuit_max_speed_pos : 0 < Circuit.MAX_SPEED.
Proof. unfold Circuit.MAX_SPEED; lra. Qed.

Lemma multiplyScalar_twice (v : Vector3) (a b : R) :
  multiplyScalar (multiplyScalar v a) b = multiplyScalar v (a * b).
Proof. apply Vector3_eq; cbn [multiplyScalar x y z]; ring. Qed.

Lemma speed_scaled (w w' : World) (c : R) :
  0 <= c -> velocity w' = multiplyScalar (velocity w) c ->
  speed w' = c * speed w.
Proof.
  intros Hc E. unfold speed. rewrite E, length_multiplyScalar.
  rewrite Rabs_right; lra.
Qed.

Lemma openField_coasting (deltaTime : R) (keys : Keys) (w : World) :
  forward keys = false -> backward keys = false ->
  exists c : R,
    0 < c <= OpenField.DRAG
    /\ velocity (OpenField.updatePhysics deltaTime keys w)
       = multiplyScalar (velocity w) c.
Proof.
  intros Hf Hb.
  destruct (translated_coasting OpenField.MASS OpenField.ACCELERATION
              OpenField.MAX_SPEED OpenField.DRAG OpenField.ANGULAR_DRAG
              OpenField.TURN_RATE openField_max_speed_pos openField_drag_range
              deltaTime keys w Hf Hb) as (c & Hc & E & _).
  fold (OpenField.translated deltaTime keys w) in E.
  destruct (openField_step_velocity deltaTime keys w) as [Hmiss Hhit].
  cbv zeta in Hmiss, Hhit.
  destruct (OpenField.outOfBounds (OpenField.translated deltaTime keys w)).
  - exists (c * 0.01). split; [lra |].
    rewrite (Hhit eq_refl), E. apply multiplyScalar_twice.
  - exists c. split; [assumption |]. rewrite (Hmiss eq_refl). exact E.
Qed.

Lemma circuit_coasting (deltaTime : R) (keys : Keys) (w : World) :
  forward keys = false -> backward keys = false ->
  exists c : R,
    0 < c <= Circuit.DRAG
    /\ velocity (Circuit.updatePhysics deltaTime keys w)
       = multiplyScalar (velocity w) c.
Proof.
  intros Hf Hb.
  destruct (translated_coasting Circuit.MASS Circuit.ACCELERATION
              Circuit.MAX_SPEED Circuit.DRAG Circuit.ANGULAR_DRAG
              Circuit.TURN_RATE circuit_max_speed_pos circuit_drag_range
              deltaTime keys w Hf Hb) as (c & Hc & E & _).
  fold (Circuit.translated deltaTime keys w) in E.
  destruct (circuit_step_velocity deltaTime keys w) as [Hmiss Hhit].
  cbv zeta in Hmiss, Hhit.
  destruct (Circuit.offTrack (Circuit.translated deltaTime keys w)).
  - exists (c * 0.01). split; [lra |].
    rewrite (Hhit eq_refl), E. apply multiplyScalar_twice.
  - exists c. split; [assumption |]. rewrite (Hmiss eq_refl). exact E.
Qed.



(** X10. A frame of length zero (the clock reports 0 for the first frame)
    does not read the latch: the step is the same whatever keys are held.
    It is not a no-op either: the velocity is still multiplied by DRAG and
    clamped, the angular velocity by ANGULAR_DRAG, and the heading still
    advances by the new angular velocity; only the position is left as it is
    by the integration.  Both variants. *)
Theorem zero_length_frame_ignores_keys :
  forall (keys : Keys) (w : World),
    (OpenField.updatePhysics 0 keys w = OpenField.updatePhysics 0 noKeys w
     /\ position (OpenField.updatePhysics 0 keys w) = position w
     /\ angularVelocity (OpenField.updatePhysics 0 keys w)
        = angularVelocity w * OpenField.ANGULAR_DRAG
     /\ rotation_y (OpenField.updatePhysics 0 keys w)
        = rotation_y w + angularVelocity w * OpenField.ANGULAR_DRAG
     /\ velocity (OpenField.translated 0 keys w)
        = clampSpeed OpenField.MAX_SPEED
            (multiplyScalar (velocity w) OpenField.DRAG))
    /\
    (Circuit.updatePhysics 0 keys w = Circuit.updatePhysics 0 noKeys w
     /\ position (Circuit.translated 0 keys w) = position w
     /\ angularVelocity (Circuit.updatePhysics 0 keys w)
        = angularVelocity w * Circuit.ANGULAR_DRAG
     /\ rotation_y (Circuit.updatePhysics 0 keys w)
        = rotation_y w + angularVelocity w * Circuit.ANGULAR_DRAG
     /\ velocity (Circuit.translated 0 keys w)
        = clampSpeed Circuit.MAX_SPEED
            (multiplyScalar (velocity w) Circuit.DRAG)).
Proof.
  intros keys w. split.
  - assert (T : OpenField.translated 0 keys w = OpenField.translated 0 noKeys w)
      by apply translated_zero.
    destruct (openField_step_heading 0 keys w) as [Ha Hh].
    rewrite steerInput_zero in Ha, Hh.
    split; [rewrite !openField_updatePhysics_eq, T; reflexivity |].
    split.
    { destruct (openField_step_camera 0 keys w) as [_ Hp]. cbv zeta in Hp.
      rewrite Hp. apply translated_zero_position. }
    split; [exact Ha |]. split; [exact Hh |].
    unfold OpenField.translated. rewrite translated_velocity.
    f_equal. unfold draggedVelocity.
    apply Vector3_eq; cbn [add multiplyScalar divideScalar x y z rotation
                           velocity]; ring.
  - assert (T : Circuit.translated 0 keys w = Circuit.translated 0 noKeys w)
      by apply translated_zero.
    destruct (circuit_step_heading 0 keys w) as [Ha Hh].
    rewrite steerInput_zero in Ha, Hh.
    split; [rewrite !circuit_updatePhysics_eq, T; reflexivity |].
    split; [apply translated_zero_position |].
    split; [exact Ha |]. split; [exact Hh |].
    unfold Circuit.translated. rewrite translated_velocity.
    f_equal. unfold draggedVelocity.
    apply Vector3_eq; cbn [add multiplyScalar divideScalar x y z rotation
                           velocity]; ring.
Qed.

(** The camera fields replaced. *)
Lemma circuit_boundaryCheck_camera (w : World) (cp ct : Vector3) :
  Circuit.boundaryCheck
    (mkWorld (velocity w) (angularVelocity w) (position w) (rotation_y w)
             cp ct)
  = mkWorld (velocity (Circuit.boundaryCheck w))
            (angularVelocity (Circuit.boundaryCheck w))
            (position (Circuit.boundaryCheck w))
            (rotation_y (Circuit.boundaryCheck w)) cp ct.
Proof.
  unfold Circuit.boundaryCheck, Circuit.position2D. cbn [position].
  destruct (Rltb _ _), (Rgtb _ _); reflexivity.
Qed.

(** X11. The chase camera is an output only: a step never reads the camera.
    Two states that differ only in where the camera is and what it looks at
    give the same state after one step, camera included; so the two copies
    of the open-field script, which differ in the initial camera placement,
    agree from the first frame on.  Both variants. *)
Theorem step_never_reads_the_camera :
  forall (deltaTime : R) (keys : Keys) (w : World) (cp ct : Vector3),
    OpenField.updatePhysics deltaTime keys
      (mkWorld (velocity w) (angularVelocity w) (position w) (rotation_y w)
               cp ct)
    = OpenField.updatePhysics deltaTime keys w
    /\ Circuit.updatePhysics deltaTime keys
         (mkWorld (velocity w) (angularVelocity w) (position w) (rotation_y w)
                  cp ct)
       = Circuit.updatePhysics deltaTime keys w.
Proof.
  intros deltaTime keys w cp ct. split.
  - rewrite !openField_updatePhysics_eq. reflexivity.
  - rewrite !circuit_updatePhysics_eq.
    change (Circuit.translated deltaTime keys
              (mkWorld (velocity w) (angularVelocity w) (position w)
                       (rotation_y w) cp ct))
      with (mkWorld (velocity (Circuit.translated deltaTime keys w))
                    (angularVelocity (Circuit.translated deltaTime keys w))
                    (position (Circuit.translated deltaTime keys w))
                    (rotation_y (Circuit.translated deltaTime keys w))
                    cp ct).
    rewrite circuit_boundaryCheck_camera. reflexivity.
Qed.

(** ** What holds in every state the script can reach *)

Section Sessions.

Variable step : R -> Keys -> World -> World.
Variable invariant : World -> Prop.

Hypothesis step_keeps :
  forall (deltaTime : R) (keys : Keys) (w : World),
    invariant w -> invariant (step deltaTime keys w).

(** Key events do not touch the globals of the physics, so what every frame
    keeps, every session keeps. *)
Lemma session_keeps (events : list Event) (g : Keys * World) :
  invariant (snd g) -> invariant (snd (session step events g)).
Proof.
  revert g. induction events as [| e events IH]; intros g Hg; [exact Hg |].
  cbn [session fold_left]. apply IH.
  destruct e as [key | key | deltaTime]; cbn [dispatch snd];
    [exact Hg | exact Hg | apply step_keeps; exact Hg].
Qed.

End Sessions.

Lemma speed_restAt (p : Vector3) (h : R) : speed (restAt p h) = 0.
Proof. unfold speed. cbn [restAt velocity]. now apply length_zero_iff. Qed.

Lemma openField_step_speed (deltaTime : R) (keys : Keys) (w : World) :
  speed (OpenField.updatePhysics deltaTime keys w) <= OpenField.MAX_SPEED.
Proof.
  pose proof openField_max_speed_pos as HM.
  pose proof (openField_step_not_faster deltaTime keys w) as H.
  assert (Ht : speed (OpenField.translated deltaTime keys w)
               <= OpenField.MAX_SPEED)
    by (apply clampSpeed_bound; lra).
  lra.
Qed.

Lemma circuit_step_speed (deltaTime : R) (keys : Keys) (w : World) :
  speed (Circuit.updatePhysics deltaTime keys w) <= Circuit.MAX_SPEED.
Proof.
  pose proof circuit_max_speed_pos as HM.
  pose proof (circuit_step_not_faster deltaTime keys w) as H.
  assert (Ht : speed (Circuit.translated deltaTime keys w)
               <= Circuit.MAX_SPEED)
    by (apply clampSpeed_bound; lra).
  lra.
Qed.

Lemma openField_step_vertical (deltaTime : R) (keys : Keys) (w : World) :
  y (velocity w) = 0 ->
  y (velocity (OpenField.updatePhysics deltaTime keys w)) = 0
  /\ y (position (OpenField.updatePhysics deltaTime keys w)) = y (position w).
Proof.
  intros Hv.
  assert (Ht : y (velocity (OpenField.translated deltaTime keys w)) = 0)
    by (apply translated_velocity_vertical; assumption).
  split.
  - destruct (openField_step_velocity deltaTime keys w) as [Hmiss Hhit].
    cbv zeta in Hmiss, Hhit.
    destruct (OpenField.outOfBounds (OpenField.translated deltaTime keys w)).
    + rewrite (Hhit eq_refl). apply multiplyScalar_vertical. exact Ht.
    + rewrite (Hmiss eq_refl). exact Ht.
  - destruct (openField_step_camera deltaTime keys w) as [_ Hp].
    cbv zeta in Hp. rewrite Hp.
    unfold OpenField.translated in *. rewrite translated_position.
    cbn [add multiplyScalar y]. rewrite Ht. ring.
Qed.

Lemma circuit_step_vertical (deltaTime : R) (keys : Keys) (w : World) :
  y (velocity w) = 0 ->
  y (velocity (Circuit.updatePhysics deltaTime keys w)) = 0
  /\ y (position (Circuit.updatePhysics deltaTime keys w)) = y (position w).
Proof.
  intros Hv.
  assert (Ht : y (velocity (Circuit.translated deltaTime keys w)) = 0)
    by (apply translated_velocity_vertical; assumption).
  rewrite circuit_updatePhysics_eq. cbn [cameraFollow velocity position].
  destruct (circuit_boundaryCheck_frame (Circuit.translated deltaTime keys w))
    as (_ & _ & Hy & Hvel).
  split.
  - destruct Hvel as [E | E]; rewrite E;
      [| apply multiplyScalar_vertical]; exact Ht.
  - rewrite Hy. unfold Circuit.translated in *. rewrite translated_position.
    cbn [add multiplyScalar y]. rewrite Ht. ring.
Qed.


(** After a circuit step the body is on the track, or at the centre when
    the translation put it exactly there. *)
Lemma circuit_step_confined (deltaTime : R) (keys : Keys) (w : World) :
  let t := Circuit.translated deltaTime keys w in
  let w' := Circuit.updatePhysics deltaTime keys w in
  Circuit.TRACK_RADIUS <= Circuit.distanceToCenter w'
  <= Circuit.TRACK_RADIUS + Circuit.TRACK_WIDTH
  \/ (Circuit.distanceToCenter t = 0 /\ Circuit.distanceToCenter w' = 0).
Proof.
  intros t w'.
  assert (Hw' : Circuit.distanceToCenter w'
                = Circuit.distanceToCenter (Circuit.boundaryCheck t))
    by reflexivity.
  rewrite Hw'.
  pose proof (length2_nonneg (Circuit.position2D t)) as Hd.
  fold (Circuit.distanceToCenter t) in Hd.
  destruct (circuit_offTrack_cases t) as [H | [H | H]].
  - rewrite circuit_boundaryCheck_miss by exact H. left.
    unfold Circuit.offTrack in H. apply orb_false_iff in H as [H1 H2].
    apply Rltb_false in H1. apply Rgtb_false in H2. split; assumption.
  - rewrite circuit_boundaryCheck_inner by exact H.
    destruct (Req_dec_T (Circuit.distanceToCenter t) 0) as [H0 | Hn].
    + right. split; [exact H0 |].
      assert (Hp : Circuit.position2D t = mkVector2 0 0)
        by (apply length2_zero_iff; exact H0).
      destruct (circuit_snapTo_world (Circuit.TRACK_RADIUS + 0.1) t)
        as (_ & _ & _ & _ & Hx & _ & Hz).
      assert (Hn : normalize2 (Circuit.position2D t) = mkVector2 0 0)
        by (rewrite Hp; apply normalize2_zero).
      rewrite Hn in Hx, Hz. cbn [x2 y2] in Hx, Hz.
      set (s := fst (Circuit.snapTo (Circuit.TRACK_RADIUS + 0.1)
                       (t, Circuit.position2D t))) in *.
      unfold Circuit.distanceToCenter, Circuit.position2D.
      rewrite Hx, Hz. apply length2_zero_iff.
      apply Vector2_eq; cbn [x2 y2]; ring.
    + left.
      destruct (circuit_snapTo_radial (Circuit.TRACK_RADIUS + 0.1) t)
        as (_ & _ & E); [lra | unfold Circuit.TRACK_RADIUS; lra |].
      rewrite E. unfold Circuit.TRACK_RADIUS, Circuit.TRACK_WIDTH. lra.
  - rewrite circuit_boundaryCheck_outer by exact H.
    left.
    destruct (circuit_snapTo_radial
                (Circuit.TRACK_RADIUS + Circuit.TRACK_WIDTH - 0.1) t)
      as (_ & _ & E);
      [unfold Circuit.TRACK_RADIUS, Circuit.TRACK_WIDTH in *; lra
      | unfold Circuit.TRACK_RADIUS, Circuit.TRACK_WIDTH; lra |].
    rewrite E. unfold Circuit.TRACK_RADIUS, Circuit.TRACK_WIDTH. lra.
Qed.

(** X6. The circuit keeps the body on the track.  After every step, from
    any state, the horizontal distance of the body from the centre is
    between TRACK_RADIUS and TRACK_RADIUS + TRACK_WIDTH, with one exception:
    a body that the translation put exactly on the centre stays on the
    centre.  So in every state the circuit script can reach from its
    start-up state the body is on the track or exactly on the centre. *)
Theorem circuit_confines_the_body :
  (forall (deltaTime : R) (keys : Keys) (w : World),
      let t := Circuit.translated deltaTime keys w in
      let w' := Circuit.updatePhysics deltaTime keys w in
      Circuit.TRACK_RADIUS <= Circuit.distanceToCenter w'
      <= Circuit.TRACK_RADIUS + Circuit.TRACK_WIDTH
      \/ (Circuit.distanceToCenter t = 0 /\ Circuit.distanceToCenter w' = 0))
  /\
  (forall events : list Event,
      let w := snd (CircuitScript.run events) in
      Circuit.TRACK_RADIUS <= Circuit.distanceToCenter w
      <= Circuit.TRACK_RADIUS + Circuit.TRACK_WIDTH
      \/ Circuit.distanceToCenter w = 0).
Proof.
  split; [exact circuit_step_confined |].
  intros events. cbv zeta.
  apply (session_keeps Circuit.updatePhysics
           (fun w => Circuit.TRACK_RADIUS <= Circuit.distanceToCenter w
                     <= Circuit.TRACK_RADIUS + Circuit.TRACK_WIDTH
                     \/ Circuit.distanceToCenter w = 0)).
  - intros deltaTime keys w _.
    destruct (circuit_step_confined deltaTime keys w) as [H | [_ H]];
      [left | right]; exact H.
  - left. cbn [CircuitScript.init snd].
    unfold Circuit.distanceToCenter, Circuit.position2D.
    cbn [restAt position x z]. rewrite length2_on_x_axis.
    unfold Circuit.TRACK_RADIUS, Circuit.TRACK_WIDTH.
    rewrite Rabs_right; lra.
Qed.

(** ** A body at rest *)

Lemma zero_vector_decayed :
  multiplyScalar (mkVector3 0 0 0) 0.01 = mkVector3 0 0 0.
Proof. apply Vector3_eq; cbn [multiplyScalar x y z]; ring. Qed.

Lemma openField_step_rest (deltaTime : R) (w : World) :
  velocity w = mkVector3 0 0 0 -> angularVelocity w = 0 ->
  let w' := OpenField.updatePhysics deltaTime noKeys w in
  velocity w' = mkVector3 0 0 0 /\ angularVelocity w' = 0
  /\ position w' = position w /\ rotation_y w' = rotation_y w.
Proof.
  intros Hv Ha w'.
  destruct (translated_rest OpenField.MASS OpenField.ACCELERATION
              OpenField.MAX_SPEED OpenField.DRAG OpenField.ANGULAR_DRAG
              OpenField.TURN_RATE deltaTime noKeys w)
    as [Tv Tp]; try reflexivity; try assumption.
  { pose proof openField_max_speed_pos. lra. }
  fold (OpenField.translated deltaTime noKeys w) in Tv, Tp.
  destruct (openField_step_heading deltaTime noKeys w) as [Sa Sh].
  cbn [steerInput noKeys left right] in Sa, Sh. rewrite Ha in Sa, Sh.
  destruct (openField_step_camera deltaTime noKeys w) as [_ Sp].
  cbv zeta in Sp.
  destruct (openField_step_velocity deltaTime noKeys w) as [Hmiss Hhit].
  cbv zeta in Hmiss, Hhit.
  unfold w'. repeat split.
  - destruct (OpenField.outOfBounds (OpenField.translated deltaTime noKeys w)).
    + rewrite (Hhit eq_refl), Tv. apply zero_vector_decayed.
    + rewrite (Hmiss eq_refl). exact Tv.
  - rewrite Sa. ring.
  - rewrite Sp. exact Tp.
  - rewrite Sh. ring.
Qed.

Lemma circuit_offTrack_position (w1 w2 : World) :
  position w1 = position w2 -> Circuit.offTrack w1 = Circuit.offTrack w2.
Proof.
  intros E. unfold Circuit.offTrack, Circuit.distanceToCenter,
              Circuit.position2D. now rewrite E.
Qed.

Lemma circuit_step_rest (deltaTime : R) (w : World) :
  velocity w = mkVector3 0 0 0 -> angularVelocity w = 0 ->
  Circuit.offTrack w = false ->
  let w' := Circuit.updatePhysics deltaTime noKeys w in
  velocity w' = mkVector3 0 0 0 /\ angularVelocity w' = 0
  /\ position w' = position w /\ rotation_y w' = rotation_y w.
Proof.
  intros Hv Ha Hon w'.
  destruct (translated_rest Circuit.MASS Circuit.ACCELERATION
              Circuit.MAX_SPEED Circuit.DRAG Circuit.ANGULAR_DRAG
              Circuit.TURN_RATE deltaTime noKeys w)
    as [Tv Tp]; try reflexivity; try assumption.
  { pose proof circuit_max_speed_pos. lra. }
  fold (Circuit.translated deltaTime noKeys w) in Tv, Tp.
  assert (Hun : Circuit.offTrack (Circuit.translated deltaTime noKeys w)
                = false)
    by (rewrite (circuit_offTrack_position _ w Tp); exact Hon).
  destruct (circuit_step_untouched deltaTime noKeys w Hun)
    as (Sv & _ & _ & Sp).
  destruct (circuit_step_heading deltaTime noKeys w) as [Sa Sh].
  cbn [steerInput noKeys left right] in Sa, Sh. rewrite Ha in Sa, Sh.
  unfold w'. repeat split.
  - rewrite Sv. exact Tv.
  - rewrite Sa. ring.
  - rewrite Sp. exact Tp.
  - rewrite Sh. ring.
Qed.

(** X12. Nothing moves by itself.  With no key held, a body at rest that
    does not turn keeps its velocity, angular velocity, position and heading
    through any number of frames of any lengths: in the open field wherever
    it stands (also outside the boundary), on the circuit when it stands
    between the walls. *)
Theorem rest_is_a_fixed_point :
  forall (inputs : list (R * Keys)) (w : World),
    Forall (fun i => snd i = noKeys) inputs ->
    velocity w = mkVector3 0 0 0 -> angularVelocity w = 0 ->
    (let w' := runFrames OpenField.updatePhysics inputs w in
     velocity w' = velocity w /\ angularVelocity w' = angularVelocity w
     /\ position w' = position w /\ rotation_y w' = rotation_y w)
    /\
    (Circuit.offTrack w = false ->
     let w' := runFrames Circuit.updatePhysics inputs w in
     velocity w' = velocity w /\ angularVelocity w' = angularVelocity w
     /\ position w' = position w /\ rotation_y w' = rotation_y w).
Proof.
  intros inputs w H. revert w.
  induction H as [| i inputs Hi _ IH]; intros w Hv Ha.
  - split; [| intros _]; cbv zeta; cbn [runFrames fold_left]; repeat split.
  - destruct i as [deltaTime keys]. cbn [snd] in Hi. subst keys. split.
    + destruct (openField_step_rest deltaTime w Hv Ha) as (Sv & Sa & Sp & Sh).
      destruct (IH _ Sv Sa) as [(Iv & Ia & Ip & Ih) _].
      cbv zeta in *. cbn [runFrames fold_left fst snd].
      unfold runFrames in Iv, Ia, Ip, Ih.
      rewrite Iv, Ia, Ip, Ih, Sv, Sa, Sp, Sh, Hv, Ha. repeat split.
    + intros Hon.
      destruct (circuit_step_rest deltaTime w Hv Ha Hon) as (Sv & Sa & Sp & Sh).
      destruct (IH _ Sv Sa) as [_ I].
      destruct I as (Iv & Ia & Ip & Ih).
      { rewrite (circuit_offTrack_position _ w Sp). exact Hon. }
      cbv zeta in *. cbn [runFrames fold_left fst snd].
      unfold runFrames in Iv, Ia, Ip, Ih.
      rewrite Iv, Ia, Ip, Ih, Sv, Sa, Sp, Sh, Hv, Ha. repeat split.
Qed.

Lemma rest_is_a_fixed_point_witness :
  let inputs := [(0, noKeys); (0.016, noKeys); (2, noKeys)] in
  position (runFrames OpenField.updatePhysics inputs
              (snd OpenFieldScript.init))
  = mkVector3 0 0.5 0
  /\ position (runFrames Circuit.updatePhysics inputs
                 (snd CircuitScript.init))
     = mkVector3 (Circuit.TRACK_RADIUS + Circuit.TRACK_WIDTH / 2) 0.5 0.
Proof.
  intros inputs.
  assert (H : Forall (fun i : R * Keys => snd i = noKeys) inputs)
    by (repeat constructor).
  split.
  - destruct (rest_is_a_fixed_point inputs (snd OpenFieldScript.init) H
                eq_refl eq_refl) as [(_ & _ & Hp & _) _].
    exact Hp.
  - destruct (rest_is_a_fixed_point inputs (snd CircuitScript.init) H
                eq_refl eq_refl) as [_ Hc].
    destruct Hc as (_ & _ & Hp & _); [| exact Hp].
    apply circuit_inside. cbn [CircuitScript.init snd restAt position x z].
    rewrite length2_on_x_axis.
    unfold Circuit.TRACK_RADIUS, Circuit.TRACK_WIDTH.
    rewrite Rabs_right; lra.
Defined.

(** ** The open field does not hold the body *)

Lemma nat_above (r : R) : exists n : nat, r <= INR n.
Proof.
  destruct (archimed r) as [H _].
  destruct (Z_le_gt_dec 0 (up r)) as [Hz | Hz].
  - exists (Z.to_nat (up r)). rewrite INR_IZR_INZ, Z2Nat.id by assumption. lra.
  - exists 0%nat. cbn [INR].
    assert (IZR (up r) < 0) by (apply IZR_lt; lia). lra.
Qed.

(** One open-field step of a body that moves along its heading, boundary
    hit or not: it still moves along the heading, and it has advanced by the
    clamped speed times the frame time. *)
Lemma openField_step_alongHeading (deltaTime h s : R) (w : World) :
  0 < deltaTime -> 0 <= s -> alongHeading h s w ->
  let advance :=
    speedStep OpenField.MASS OpenField.ACCELERATION OpenField.MAX_SPEED
              OpenField.DRAG deltaTime s * deltaTime in
  (exists s' : R,
      0 <= s'
      /\ alongHeading h s' (OpenField.updatePhysics deltaTime forwardOnly w))
  /\ position (OpenField.updatePhysics deltaTime forwardOnly w)
     = add (position w) (multiplyScalar (headingVector h) advance)
  /\ deltaTime
     * Rmin (OpenField.ACCELERATION / OpenField.MASS * deltaTime
             * OpenField.DRAG) OpenField.MAX_SPEED
     <= advance.
Proof.
  intros Hdt Hs Hal advance.
  destruct openField_constants as (Om & Oa & Ox & Od).
  destruct (alongHeading_translated OpenField.MASS OpenField.ACCELERATION
              OpenField.MAX_SPEED OpenField.DRAG OpenField.ANGULAR_DRAG
              OpenField.TURN_RATE Om Oa Od deltaTime Hdt h s w Hs Hal)
    as [(Ta & Th & Tv) Tp].
  fold (OpenField.translated deltaTime forwardOnly w) in Ta, Th, Tv, Tp.
  set (s1 := speedStep OpenField.MASS OpenField.ACCELERATION
                       OpenField.MAX_SPEED OpenField.DRAG deltaTime s) in *.
  assert (Hlow : Rmin (OpenField.ACCELERATION / OpenField.MASS * deltaTime
                       * OpenField.DRAG) OpenField.MAX_SPEED <= s1).
  { pose proof (gain_pos _ _ Om Oa deltaTime Hdt) as Hg.
    destruct (speedStep_eq OpenField.MASS OpenField.ACCELERATION
                OpenField.MAX_SPEED OpenField.DRAG deltaTime s)
      as [[E _] | [E _]]; fold s1 in E; rewrite E.
    - eapply Rle_trans; [apply Rmin_l |]. nra.
    - apply Rmin_r. }
  assert (Hs1 : 0 <= s1).
  { pose proof (gain_pos _ _ Om Oa deltaTime Hdt) as Hg.
    eapply Rle_trans; [| exact Hlow].
    apply Rmin_glb; nra. }
  destruct (openField_step_heading deltaTime forwardOnly w) as [Sa Sh].
  destruct (openField_step_camera deltaTime forwardOnly w) as [_ Sp].
  cbv zeta in Sp.
  destruct (openField_step_velocity deltaTime forwardOnly w) as [Hmiss Hhit].
  cbv zeta in Hmiss, Hhit.
  assert (Ea : angularVelocity (OpenField.updatePhysics deltaTime forwardOnly w)
               = 0) by (rewrite Sa; exact Ta).
  assert (Eh : rotation_y (OpenField.updatePhysics deltaTime forwardOnly w) = h)
    by (rewrite Sh; exact Th).
  split; [| split].
  - destruct (OpenField.outOfBounds
                (OpenField.translated deltaTime forwardOnly w)).
    + exists (s1 * 0.01). split; [lra |].
      repeat split; try assumption.
      rewrite (Hhit eq_refl), Tv. apply multiplyScalar_twice.
    + exists s1. split; [assumption |].
      repeat split; try assumption.
      rewrite (Hmiss eq_refl). exact Tv.
  - rewrite Sp. exact Tp.
  - unfold advance. nra.
Qed.

Lemma openField_run_alongHeading (deltaTime : R) (w0 : World) (n : nat) :
  0 < deltaTime ->
  velocity w0 = mkVector3 0 0 0 -> angularVelocity w0 = 0 ->
  exists s D : R,
    0 <= s
    /\ alongHeading (rotation_y w0) s
         (frames (OpenField.updatePhysics deltaTime forwardOnly) n w0)
    /\ position (frames (OpenField.updatePhysics deltaTime forwardOnly) n w0)
       = add (position w0)
             (multiplyScalar (headingVector (rotation_y w0)) D)
    /\ INR n
       * (deltaTime
          * Rmin (OpenField.ACCELERATION / OpenField.MASS * deltaTime
                  * OpenField.DRAG) OpenField.MAX_SPEED)
       <= D.
Proof.
  intros Hdt Hv Ha. induction n as [| n (s & D & Hs & Hal & Hp & HD)].
  - exists 0, 0. cbn [frames INR]. split; [lra |]. split; [| split].
    + repeat split; [assumption |]. rewrite Hv.
      apply Vector3_eq; cbn [multiplyScalar x y z]; ring.
    + apply Vector3_eq; cbn [add multiplyScalar x y z]; ring.
    + lra.
  - destruct (openField_step_alongHeading deltaTime _ s _ Hdt Hs Hal)
      as ((s' & Hs' & Hal') & Hp' & Hadv).
    cbv zeta in Hp', Hadv.
    exists s'. eexists. cbn [frames]. split; [exact Hs' |].
    split; [exact Hal' |]. split.
    + rewrite Hp', Hp.
      apply Vector3_eq; cbn [add multiplyScalar x y z];
        rewrite Rplus_assoc, <- Rmult_plus_distr_l; reflexivity.
    + rewrite S_INR. lra.
Qed.



(** ** Start-up: the pillars *)

(** X14. [init] places exactly 20 pillars, each at height 1.5 and, as
    [Math.random()] returns values in [0, 1), with both horizontal
    coordinates in [-45, 45): inside the boundary of 48 within which the
    body moves freely. *)
Theorem obstacles_are_inside_the_boundary :
  forall random : nat -> R,
    (forall n : nat, 0 <= random n < 1) ->
    List.length (OpenFieldScript.obstacles random) = 20%nat
    /\ forall p : Vector3,
        In p (OpenFieldScript.obstacles random) ->
        y p = 1.5
        /\ -45 <= x p < 45 /\ -45 <= z p < 45
        /\ Rabs (x p) < OpenField.boundary
        /\ Rabs (z p) < OpenField.boundary.
Proof.
  intros random Hr. split; [reflexivity |].
  intros p Hp. unfold OpenFieldScript.obstacles in Hp.
  apply in_map_iff in Hp as (i & <- & _).
  unfold OpenFieldScript.obstacle; cbn [x y z].
  pose proof (Hr (2 * i)%nat) as H1. pose proof (Hr (2 * i + 1)%nat) as H2.
  unfold OpenField.boundary.
  repeat split; try lra; apply Rabs_def1; lra.
Qed.

Lemma obstacles_are_inside_the_boundary_witness :
  List.length (OpenFieldScript.obstacles (fun n => / (INR n + 2))) = 20%nat.
Proof.
  apply (obstacles_are_inside_the_boundary (fun n => / (INR n + 2))).
  intros n. pose proof (pos_INR n) as Hn.
  assert (Hpos : 0 < INR n + 2) by lra.
  split.
  - left. apply Rinv_0_lt_compat. exact Hpos.
  - rewrite <- Rinv_1. apply Rinv_lt_contravar; lra.
Defined.

(** ** Damping per frame, not per second *)


